(** * wiki-live-graph: the analytics pipeline of [ml/server.py]

    A shallow embedding of the Flask handler [analyze] and of the functions
    it calls ([build_graphs], [detect_communities], [compute_pagerank],
    [detect_hubs], [detect_anomalies], the four [evaluate_*] functions).

    JSON objects with optional fields are records of [option]s, Python
    dictionaries are insertion-ordered association lists with unique keys,
    Python exceptions are the [Raise] branch of [result], Python integers are
    [Z], the floats of the request (the edge weights) are IEEE binary64
    values, and the floats that the numeric libraries compute are exact
    rationals [Q].  The three numeric
    libraries the server calls (NetworkX's Louvain, PageRank, clustering and
    modularity, scikit-learn's IsolationForest, NumPy's [log2]) are
    parameters of a section: the theorems hold for every implementation of
    them, under the hypotheses that are stated where they are needed. *)

From Stdlib Require Import ZArith QArith Qround Qminmax Lia List Permutation Sorted.
From Stdlib Require Import SpecFloat.
From stdpp Require Import base decidable option list strings pretty.

Local Open Scope Z_scope.

(** ** Exceptions *)

Inductive exn : Type :=
| KeyError (key : string)
| TypeError (argument : string)
| OverflowError
| ZeroDivisionError
| IndexError
| LibraryError (msg : string).

Inductive result (A : Type) : Type :=
| Ok (a : A)
| Raise (e : exn).
Arguments Ok {A} a.
Arguments Raise {A} e.

Definition bind {A B : Type} (r : result A) (k : A → result B) : result B :=
  match r with
  | Ok a => k a
  | Raise e => Raise e
  end.

Notation "x <-- r ;; k" := (bind r (fun x => k))
  (at level 100, r at next level, right associativity).

(** [for x in l: st = f(st, x)], stopping at the first exception. *)
Fixpoint for_each {A S : Type} (f : S → A → result S) (l : list A) (st : S)
  : result S :=
  match l with
  | [] => Ok st
  | x :: l' => st' <-- f st x ;; for_each f l' st'
  end.

(** [d[key]] on a JSON object whose field [key] may be absent. *)
Definition getitem {A : Type} (key : string) (field : option A) : result A :=
  match field with
  | Some a => Ok a
  | None => Raise (KeyError key)
  end.

(** [str(e)]: a [KeyError] prints the [repr] of its key. *)
Definition str_exn (e : exn) : string :=
  match e with
  | KeyError k => "'" +:+ k +:+ "'"
  | TypeError a =>
      "Graph.add_node() got multiple values for argument '" +:+ a +:+ "'"
  | OverflowError => "int too large to convert to float"
  | ZeroDivisionError => "division by zero"
  | IndexError => "index out of bounds"
  | LibraryError m => m
  end.

(** ** Python numbers

    A JSON number is a Python [int] or a Python [float]; a float is an IEEE
    binary64 value, with the arithmetic of [SpecFloat]. *)

Inductive number : Type :=
| Int (z : Z)
| Float (f : spec_float).

(** [float(z)]: round to nearest even, [OverflowError] beyond the range. *)
Definition float_of_int (z : Z) : result spec_float :=
  match binary_normalize 53 1024 z 0 false with
  | S754_infinity _ => Raise OverflowError
  | f => Ok f
  end.

(** [a + b] *)
Definition py_add (a b : number) : result number :=
  match a, b with
  | Int x, Int y => Ok (Int (x + y))
  | Float x, Float y => Ok (Float (SFadd 53 1024 x y))
  | Int x, Float y =>
      fx <-- float_of_int x ;; Ok (Float (SFadd 53 1024 fx y))
  | Float x, Int y =>
      fy <-- float_of_int y ;; Ok (Float (SFadd 53 1024 x fy))
  end.

(** ** Insertion-ordered dictionaries *)

Module Dict.
Section dict.
Context {K V : Type} `{EqDecision K}.

Fixpoint get (d : list (K * V)) (k : K) : option V :=
  match d with
  | [] => None
  | (k', v) :: d' => if decide (k = k') then Some v else get d' k
  end.

Definition mem (d : list (K * V)) (k : K) : bool :=
  match get d k with Some _ => true | None => false end.

(** [d[k] = v]: an existing key keeps its position, a new one goes last. *)
Fixpoint set (d : list (K * V)) (k : K) (v : V) : list (K * V) :=
  match d with
  | [] => [(k, v)]
  | (k', v') :: d' =>
      if decide (k = k') then (k, v) :: d' else (k', v') :: set d' k v
  end.

Definition keys (d : list (K * V)) : list K := fst <$> d.
Definition values (d : list (K * V)) : list V := snd <$> d.
End dict.
End Dict.

(** [for k, v in kvs: acc[k] = v] *)
Definition assign_all {K V : Type} `{EqDecision K} (kvs acc : list (K * V))
  : list (K * V) :=
  fold_left (λ acc kv, Dict.set acc (fst kv) (snd kv)) kvs acc.

(** ** Request records

    A node or an edge of the request is a JSON object; a field that the
    server reads is [None] when the object has no such key.  Ids, labels
    and view tags are strings, edit counts are integers and edge weights
    are numbers.  [n_attrs] holds the other keys of a node record, in the
    order of the record, each with its value as JSON text: the server
    never reads them, but hands them to [add_node] with the rest. *)

Record node_rec : Type := mk_node {
  n_id : option string;
  n_label : option string;
  n_type : option string;
  n_editCount : option Z;
  n_attrs : list (string * string)
}.

Record edge_rec : Type := mk_edge {
  e_source : option string;
  e_target : option string;
  e_weight : option number;
  e_view : option string
}.

Record payload : Type := mk_payload {
  p_nodes : option (list node_rec);
  p_edges : option (list edge_rec)
}.

Definition no_attrs : node_rec := mk_node None None None None [].

(** [old.update(new)] on two attribute dictionaries. *)
Definition attr_update (old new : node_rec) : node_rec :=
  {| n_id := from_option Some (n_id old) (n_id new);
     n_label := from_option Some (n_label old) (n_label new);
     n_type := from_option Some (n_type old) (n_type new);
     n_editCount := from_option Some (n_editCount old) (n_editCount new);
     n_attrs := assign_all (n_attrs new) (n_attrs old) |}.

(** Binding [**n] to the parameters of [add_node(self, node_for_adding,
    **attr)]: a key that names one of the two positional parameters is a
    [TypeError]. *)
Definition kwargs (n : node_rec) : result node_rec :=
  match List.find
          (λ k, bool_decide (k = "self") || bool_decide (k = "node_for_adding"))
          (Dict.keys (n_attrs n)) with
  | Some k => Raise (TypeError k)
  | None => Ok n
  end.

(** ** [networkx.Graph]

    [node] is the [_node] dictionary and [adj] the [_adj] dictionary of
    dictionaries.  NetworkX stores ONE attribute dictionary per undirected
    edge and lets [_adj[u][v]] and [_adj[v][u]] both point to it: [data] is
    the store of these dictionaries (each holds the key ["weight"]), and an
    adjacency entry is a location in it. *)

Module Graph.

Record t : Type := mk {
  node : list (string * node_rec);
  adj : list (string * list (string * nat));
  data : list number
}.

Definition empty : t := mk [] [] [].

Definition nodes (G : t) : list string := Dict.keys (node G).

Definition number_of_nodes (G : t) : Z := Z.of_nat (length (node G)).

Definition neighbors (G : t) (n : string) : list (string * nat) :=
  default [] (Dict.get (adj G) n).

Definition has_edge (G : t) (u v : string) : bool :=
  match Dict.get (adj G) u with
  | Some nbrs => Dict.mem nbrs v
  | None => false
  end.

Definition add_node (G : t) (n : string) (attrs : node_rec) : t :=
  match Dict.get (node G) n with
  | None => mk (Dict.set (node G) n attrs) (Dict.set (adj G) n []) (data G)
  | Some old => mk (Dict.set (node G) n (attr_update old attrs)) (adj G) (data G)
  end.

(** The [if u not in self._node] block of [add_edge]. *)
Definition touch (G : t) (n : string) : t :=
  if Dict.mem (node G) n then G
  else mk (Dict.set (node G) n no_attrs) (Dict.set (adj G) n []) (data G).

(** [adj[u][v] = l] *)
Definition link (a : list (string * list (string * nat))) (u v : string)
    (l : nat) : list (string * list (string * nat)) :=
  Dict.set a u (Dict.set (default [] (Dict.get a u)) v l).

Definition add_edge (G : t) (u v : string) (w : number) : t :=
  let G := touch (touch G u) v in
  match Dict.get (neighbors G u) v with
  | Some l =>
      mk (node G) (link (link (adj G) u v l) v u l) (<[l := w]> (data G))
  | None =>
      let l := length (data G) in
      mk (node G) (link (link (adj G) u v l) v u l) (data G ++ [w])
  end.

(** [G[u][v]["weight"]] *)
Definition weight (G : t) (u v : string) : result number :=
  nbrs <-- getitem u (Dict.get (adj G) u) ;;
  l <-- getitem v (Dict.get nbrs v) ;;
  getitem "weight" (data G !! l).

(** [G[u][v]["weight"] += w] *)
Definition weight_iadd (G : t) (u v : string) (w : number) : result t :=
  nbrs <-- getitem u (Dict.get (adj G) u) ;;
  l <-- getitem v (Dict.get nbrs v) ;;
  x <-- getitem "weight" (data G !! l) ;;
  sum <-- py_add x w ;;
  Ok (mk (node G) (adj G) (<[l := sum]> (data G))).

(** [G.degree(n)]: a self-loop counts twice. *)
Definition degree (G : t) (n : string) : Z :=
  let nbrs := neighbors G n in
  Z.of_nat (length nbrs) + (if Dict.mem nbrs n then 1 else 0).

(** [G.subgraph(keep).copy()]: the nodes of [keep] and the edges among
    them, with their attribute dictionaries.  NetworkX does not fix the
    iteration order of the copy; the order of [G] is kept here. *)
Definition subgraph (G : t) (keep : list string) : t :=
  let inside (k : string) := bool_decide (k ∈ keep) in
  mk (List.filter (fun kv => inside (fst kv)) (node G))
     (List.map (fun kv => (fst kv, List.filter (fun e => inside (fst e)) (snd kv)))
        (List.filter (fun kv => inside (fst kv)) (adj G)))
     (data G).


(** [G.number_of_edges()]: half the sum of the degrees. *)
Definition number_of_edges (G : t) : Z :=
  foldr Z.add 0 (degree G <$> nodes G) / 2.

(** [G.edges()]: every edge once, from the endpoint that comes first. *)
Definition edges (G : t) : list (string * string) :=
  snd (fold_left
         (λ (acc : list string * list (string * string)) nn,
            let '(seen, out) := acc in
            let '(n, nbrs) := nn in
            (n :: seen,
             out ++ ((λ e, (n, fst e)) <$>
                       List.filter (λ e, negb (bool_decide (fst e ∈ seen)))
                         (nbrs : list (string * nat)))))
         (adj G) ([], [])).

(** The location of the attribute dictionary of the edge between [u] and
    [v], as [_adj[u]] has it. *)
Definition edge_loc (G : t) (u v : string) : option nat :=
  Dict.get (neighbors G u) v.

(** Every node has an adjacency dictionary, both directions of an edge
    share one attribute dictionary, and two different edges never do. *)
Record wf (G : t) : Prop := {
  wf_adj : ∀ n, Dict.mem (adj G) n = Dict.mem (node G) n;
  wf_sym : ∀ u v l, edge_loc G u v = Some l → edge_loc G v u = Some l;
  wf_inj : ∀ u v u' v' l,
    edge_loc G u v = Some l → edge_loc G u' v' = Some l →
    (u = u' ∧ v = v') ∨ (u = v' ∧ v = u');
  wf_bound : ∀ u v l, edge_loc G u v = Some l → (l < length (data G))%nat
}.

End Graph.

(** ** [networkx.DiGraph]

    [succ] and [pred] are the [_succ] and [_pred] dictionaries.  The
    attribute dictionary of the edge (u, v) is reachable as [succ[u][v]] and
    as [pred[v][u]] only, and [add_edge] writes both together, so each entry
    holds the weight itself. *)

Module DiGraph.

Record t : Type := mk {
  node : list (string * node_rec);
  succ : list (string * list (string * number));
  pred : list (string * list (string * number))
}.

Definition empty : t := mk [] [] [].

Definition nodes (G : t) : list string := Dict.keys (node G).

Definition number_of_nodes (G : t) : Z := Z.of_nat (length (node G)).

Definition has_edge (G : t) (u v : string) : bool :=
  match Dict.get (succ G) u with
  | Some nbrs => Dict.mem nbrs v
  | None => false
  end.

Definition add_node (G : t) (n : string) (attrs : node_rec) : t :=
  match Dict.get (node G) n with
  | None =>
      mk (Dict.set (node G) n attrs) (Dict.set (succ G) n []) (Dict.set (pred G) n [])
  | Some old => mk (Dict.set (node G) n (attr_update old attrs)) (succ G) (pred G)
  end.

Definition touch (G : t) (n : string) : t :=
  if Dict.mem (node G) n then G
  else mk (Dict.set (node G) n no_attrs) (Dict.set (succ G) n [])
         (Dict.set (pred G) n []).

Definition link (a : list (string * list (string * number))) (u v : string)
    (w : number) : list (string * list (string * number)) :=
  Dict.set a u (Dict.set (default [] (Dict.get a u)) v w).

Definition add_edge (G : t) (u v : string) (w : number) : t :=
  let G := touch (touch G u) v in
  mk (node G) (link (succ G) u v w) (link (pred G) v u w).

(** [G[u][v]["weight"]] *)
Definition weight (G : t) (u v : string) : result number :=
  nbrs <-- getitem u (Dict.get (succ G) u) ;;
  getitem v (Dict.get nbrs v).


(** The weight stored for the directed edge (u, v), if the edge exists. *)
Definition succ_weight (G : t) (u v : string) : option number :=
  Dict.get (default [] (Dict.get (succ G) u)) v.

Record wf (G : t) : Prop := {
  wf_succ : ∀ n, Dict.mem (succ G) n = Dict.mem (node G) n;
  wf_pred : ∀ n, Dict.mem (pred G) n = Dict.mem (node G) n
}.

End DiGraph.

(** ** [build_graphs] *)

Definition BIPARTITE : string := "bipartite".
Definition COEDIT : string := "coedit".

Definition node_map : Type := list (string * node_rec).

Definition graphs : Type := Graph.t * DiGraph.t * node_map.

(** The body of [for n in nodes]. *)
Definition add_declared (st : graphs) (n : node_rec) : result graphs :=
  let '(G_undirected, G_directed, node_map) := st in
  id <-- getitem "id" (n_id n) ;;
  let node_map := Dict.set node_map id n in
  attr <-- kwargs n ;;
  Ok (Graph.add_node G_undirected id attr,
      DiGraph.add_node G_directed id attr,
      node_map).

(** The body of [for e in edges]. *)
Definition add_input_edge (st : Graph.t * DiGraph.t) (e : edge_rec)
  : result (Graph.t * DiGraph.t) :=
  let '(G_undirected, G_directed) := st in
  src <-- getitem "source" (e_source e) ;;
  tgt <-- getitem "target" (e_target e) ;;
  let w := default (Int 1) (e_weight e) in
  let view := default BIPARTITE (e_view e) in
  G_undirected <--
    (if bool_decide (view = BIPARTITE) || bool_decide (view = COEDIT) then
       if Graph.has_edge G_undirected src tgt
       then Graph.weight_iadd G_undirected src tgt w
       else Ok (Graph.add_edge G_undirected src tgt w)
     else Ok G_undirected) ;;
  let G_directed :=
    if bool_decide (view = BIPARTITE) then
      let G1 :=
        if negb (DiGraph.has_edge G_directed src tgt)
        then DiGraph.add_edge G_directed src tgt w else G_directed in
      if negb (DiGraph.has_edge G1 tgt src)
      then DiGraph.add_edge G1 tgt src w else G1
    else G_directed in
  Ok (G_undirected, G_directed).

Definition build_graphs (nodes : list node_rec) (edges : list edge_rec)
  : result graphs :=
  st <-- for_each add_declared nodes (Graph.empty, DiGraph.empty, []) ;;
  let '(G_undirected, G_directed, node_map) := st in
  gs <-- for_each add_input_edge edges (G_undirected, G_directed) ;;
  Ok (fst gs, snd gs, node_map).

(** ** What [build_graphs] computes

    The view tag and the weight an edge record counts with, and the edge
    records between a pair of nodes. *)

Definition view_of (e : edge_rec) : string := default BIPARTITE (e_view e).
Definition weight_of (e : edge_rec) : number := default (Int 1) (e_weight e).

Definition in_undirected (e : edge_rec) : Prop :=
  view_of e = BIPARTITE ∨ view_of e = COEDIT.
Definition in_directed (e : edge_rec) : Prop := view_of e = BIPARTITE.

(** [e] connects [u] and [v], in either direction. *)
Definition joins (e : edge_rec) (u v : string) : Prop :=
  (e_source e = Some u ∧ e_target e = Some v) ∨
  (e_source e = Some v ∧ e_target e = Some u).

Definition endpoint (e : edge_rec) (x : string) : Prop :=
  e_source e = Some x ∨ e_target e = Some x.

#[global] Instance in_undirected_dec e : Decision (in_undirected e).
Proof. unfold in_undirected. apply _. Defined.
#[global] Instance in_directed_dec e : Decision (in_directed e).
Proof. unfold in_directed. apply _. Defined.
#[global] Instance joins_dec e u v : Decision (joins e u v).
Proof. unfold joins. apply _. Defined.
#[global] Instance endpoint_dec e x : Decision (endpoint e x).
Proof. unfold endpoint. apply _. Defined.

Definition undirected_between (edges : list edge_rec) (u v : string)
  : list edge_rec :=
  filter (λ e, in_undirected e ∧ joins e u v) edges.

Definition directed_between (edges : list edge_rec) (u v : string)
  : list edge_rec :=
  filter (λ e, in_directed e ∧ joins e u v) edges.

Definition sum_Z (l : list Z) : Z := foldr Z.add 0 l.

(** [w0 + w1 + ... + wn], added from left to right. *)
Definition add_in_order (w0 : number) (ws : list number) : result number :=
  fold_left (λ acc w, sum <-- acc ;; py_add sum w) ws (Ok w0).

Definition add_all (ws : list number) : result number :=
  match ws with
  | [] => Ok (Int 0)
  | w0 :: ws => add_in_order w0 ws
  end.

(** The weights of the qualifying edge records between u and v, added one
    after the other in the order of the edge list. *)
Definition pair_weight (edges : list edge_rec) (u v : string)
  : result number :=
  add_all (weight_of <$> undirected_between edges u v).

(** The edge records whose weight is a Python [int], and the exact sum of
    the weights of the qualifying records between u and v when they are. *)
Definition int_value (w : number) : Z :=
  match w with Int z => z | Float _ => 0 end.

Definition int_weighted (e : edge_rec) : Prop :=
  weight_of e = Int (int_value (weight_of e)).

Definition pair_sum (edges : list edge_rec) (u v : string) : Z :=
  sum_Z ((λ e, int_value (weight_of e)) <$> undirected_between edges u v).

(** No addition of the weights between a pair raises. *)
Definition weights_add (edges : list edge_rec) : Prop :=
  ∀ u v, ∃ w, pair_weight edges u v = Ok w.

(** The weight of the first bipartite edge record between u and v. *)
Definition first_weight (edges : list edge_rec) (u v : string)
  : option number :=
  weight_of <$> head (directed_between edges u v).

(** The node records that have no key named like a parameter of
    [add_node]. *)
Definition plain_keys (n : node_rec) : Prop :=
  ("self" ∉ Dict.keys (n_attrs n)) ∧
  ("node_for_adding" ∉ Dict.keys (n_attrs n)).

(** The ids the node records declare. *)
Definition declared (nodes : list node_rec) : list string := omap n_id nodes.

Definition has_id (n : node_rec) : Prop := is_Some (n_id n).
Definition has_ends (e : edge_rec) : Prop :=
  is_Some (e_source e) ∧ is_Some (e_target e).

(** *** The invariant of the edge loop, undirected view

    [D] are the declared ids and [es] the edge records consumed so far. *)

Record und_inv (D : list string) (es : list edge_rec) (G : Graph.t) : Prop := {
  ui_wf : Graph.wf G;
  ui_nodes : ∀ x,
    x ∈ Graph.nodes G ↔
    x ∈ D ∨ ∃ e, e ∈ es ∧ in_undirected e ∧ endpoint e x;
  ui_edge : ∀ u v,
    Graph.edge_loc G u v = None ↔ undirected_between es u v = [];
  ui_weight : ∀ u v l,
    Graph.edge_loc G u v = Some l →
    ∃ w, Graph.data G !! l = Some w ∧ pair_weight es u v = Ok w
}.

(** *** The invariant of the edge loop, directed view *)

Record dir_inv (D : list string) (es : list edge_rec) (G : DiGraph.t) : Prop := {
  di_wf : DiGraph.wf G;
  di_nodes : ∀ x,
    x ∈ DiGraph.nodes G ↔
    x ∈ D ∨ ∃ e, e ∈ es ∧ in_directed e ∧ endpoint e x;
  di_weight : ∀ u v, DiGraph.succ_weight G u v = first_weight es u v
}.

(** ** The numeric libraries

    The server calls NetworkX, scikit-learn and NumPy for the numeric work.
    They are outside this repository: the pipeline is stated over any
    implementation of the calls it makes.  [None] (or [Raise]) stands for a
    call that raises an exception. *)

Class Libraries : Type := {
  (** [louvain_communities(G, weight="weight", resolution=1.0, seed=42)] *)
  louvain_communities : Graph.t → option (list (list string));
  (** [nx.pagerank(G, alpha=0.85, max_iter=100, tol=1e-06, weight="weight")] *)
  nx_pagerank : DiGraph.t → option (list (string * Q));
  (** [nx.clustering(G, weight="weight")] *)
  nx_clustering : Graph.t → result (list (string * Q));
  (** [np.array(features, dtype=np.float64)] *)
  np_array : list (list Q) → result (list (list Q));
  (** [IsolationForest(n_estimators=100, contamination=c, random_state=42)],
      fitted on [X]: the arrays [predict(X)] and [decision_function(X)] *)
  isolation_forest : Q → list (list Q) → result (list Z * list Q);
  (** [modularity(G, partition, weight="weight")] *)
  nx_modularity : Graph.t → list (list string) → option Q;
  (** [np.log2] *)
  np_log2 : Q → Q;
  (** [round(x, ndigits)] *)
  py_round : Q → Z → Q
}.

(** ** Python built-ins *)

(** A dictionary comprehension, or [dict(pairs)]. *)
Definition dict_of {V : Type} (kvs : list (string * V)) : list (string * V) :=
  assign_all kvs [].

(** [enumerate(l)] *)
Definition enumerate {A : Type} (l : list A) : list (Z * A) :=
  imap (λ i x, (Z.of_nat i, x)) l.

(** [max(values)] of a non-empty sequence: the first maximal item. *)
Definition py_max (x : Q) (l : list Q) : Q :=
  fold_left (λ m v, if Qlt_le_dec m v then v else m) l x.

(** [sorted(l, key=key, reverse=True)]: stable, largest key first. *)
Fixpoint insert_desc {A : Type} (key : A → Q) (x : A) (l : list A) : list A :=
  match l with
  | [] => [x]
  | y :: l' =>
      if Qlt_le_dec (key x) (key y) then y :: insert_desc key x l'
      else x :: y :: l'
  end.

Definition sorted_desc {A : Type} (key : A → Q) (l : list A) : list A :=
  foldr (insert_desc key) [] l.

(** [sorted(l)]: stable, smallest first. *)
Fixpoint insert_asc (x : Q) (l : list Q) : list Q :=
  match l with
  | [] => [x]
  | y :: l' =>
      if Qlt_le_dec y x then y :: insert_asc x l' else x :: y :: l'
  end.

Definition sorted_asc (l : list Q) : list Q := foldr insert_asc [] l.

Definition sum_Q (l : list Q) : Q := foldr Qplus 0%Q l.

(** [a[i]] on an array. *)
Definition index {A : Type} (l : list A) (i : Z) : result A :=
  if i <? 0 then Raise IndexError
  else match l !! Z.to_nat i with
       | Some x => Ok x
       | None => Raise IndexError
       end.

Definition len {A : Type} (l : list A) : Z := Z.of_nat (length l).

(** [max(1, int(np.ceil(n * 0.1)))] *)
Definition top_decile (n : Z) : Z :=
  Z.max 1 (Qceiling (inject_Z n * (1 # 10))).

(** ** The response *)

Record hub : Type := mk_hub {
  h_id : string;
  h_label : string;
  h_degree : Z
}.

Record anomaly : Type := mk_anomaly {
  a_type : string;
  a_score : Q;
  a_details : string
}.

Record community_eval : Type := mk_community_eval {
  modularity : Q;
  numCommunities : Z;
  coverage : Q;
  largestSize : Z;
  medianSize : Z
}.

Record pagerank_eval : Type := mk_pagerank_eval {
  gini : Q;
  entropy : Q;
  top10pct : Q;
  nodeCount : Z
}.

Record hubs_eval : Type := mk_hubs_eval {
  hubCount : Z;
  maxDegree : Z;
  meanDegree : Q;
  hubConcentration : Q
}.

Record anomaly_eval : Type := mk_anomaly_eval {
  totalCount : Z;
  prolificEditors : Z;
  coordinatedEdits : Z;
  avgScore : Q
}.

Record evaluation : Type := mk_evaluation {
  ev_community : community_eval;
  ev_pagerank : pagerank_eval;
  ev_hubs : hubs_eval;
  ev_anomaly : anomaly_eval
}.

Record results : Type := mk_results {
  r_communities : list (string * Z);
  r_pagerank : list (string * Q);
  r_hubs : list hub;
  r_anomalies : list (string * anomaly);
  r_evaluation : evaluation
}.

(** What the handler returns: the JSON body, and the status when it is not
    the default 200. *)
Inductive response : Type :=
| Results (r : results)
| ErrorResponse (error : string) (status : Z).

(** ** The pipeline *)

Section pipeline.
Context `{Libraries}.

Definition detect_communities (G : Graph.t) : list (string * Z) :=
  if Graph.number_of_nodes G <? 2 then
    dict_of ((λ n, (n, 0)) <$> Graph.nodes G)
  else
    let connected_nodes := filter (λ n, 0 < Graph.degree G n) (Graph.nodes G) in
    if len connected_nodes <? 2 then
      dict_of ((λ n, (n, 0)) <$> Graph.nodes G)
    else
      let G_connected := Graph.subgraph G connected_nodes in
      match louvain_communities G_connected with
      | None =>
          dict_of ((λ '(i, n), (n, i)) <$> enumerate (Graph.nodes G))
      | Some communities_list =>
          let communities :=
            fold_left
              (λ communities '(comm_id, comm_nodes),
                 fold_left (λ communities node, Dict.set communities node comm_id)
                   comm_nodes communities)
              (enumerate communities_list) [] in
          let next_id := len communities_list in
          fold_left
            (λ communities n,
               if Dict.mem communities n then communities
               else Dict.set communities n next_id)
            (Graph.nodes G) communities
      end.

Definition compute_pagerank (G_directed : DiGraph.t) : list (string * Q) :=
  if DiGraph.number_of_nodes G_directed =? 0 then []
  else
    match nx_pagerank G_directed with
    | None => dict_of ((λ n, (n, 0%Q)) <$> DiGraph.nodes G_directed)
    | Some pr =>
        let max_pr :=
          match Dict.values pr with
          | [] => 1%Q
          | v :: vs => py_max v vs
          end in
        if Qlt_le_dec 0 max_pr
        then dict_of ((λ kv, (fst kv, (snd kv / max_pr)%Q)) <$> pr)
        else pr
    end.

(** [nx.degree_centrality(G)] *)
Definition degree_centrality (G : Graph.t) : list (string * Q) :=
  if len (Graph.nodes G) <=? 1 then
    dict_of ((λ n, (n, 1%Q)) <$> Graph.nodes G)
  else
    let s := (1 / (inject_Z (len (Graph.nodes G)) - 1))%Q in
    dict_of ((λ n, (n, (inject_Z (Graph.degree G n) * s)%Q)) <$> Graph.nodes G).

Definition detect_hubs (G : Graph.t) (node_map : node_map) : list hub :=
  if Graph.number_of_nodes G =? 0 then []
  else
    let centrality := degree_centrality G in
    let sorted_nodes := sorted_desc snd centrality in
    let hub_count := top_decile (len sorted_nodes) in
    (λ kv,
       let node_id := fst kv in
       let degree := Graph.degree G node_id in
       let label :=
         default node_id
           (n_label (default no_attrs (Dict.get node_map node_id))) in
       mk_hub node_id label degree)
    <$> take (Z.to_nat hub_count) sorted_nodes.

(** The body of the reporting loop of [detect_anomalies]. *)
Definition report_anomaly (G : Graph.t) (node_map : node_map)
    (predictions : list Z) (scores : list Q)
    (anomalies : list (string * anomaly)) (item : Z * string)
  : result (list (string * anomaly)) :=
  let '(i, nid) := item in
  p <-- index predictions i ;;
  if p =? -1 then
    let info := default no_attrs (Dict.get node_map nid) in
    let label := default nid (n_label info) in
    let node_type := default "unknown" (n_type info) in
    let edit_count := default 0 (n_editCount info) in
    let degree := Graph.degree G nid in
    let '(anomaly_type, details) :=
      if bool_decide (node_type = "editor") && (5 <? edit_count) then
        ("prolific_editor",
         label +:+ " edited " +:+ pretty edit_count
               +:+ " articles (IsolationForest outlier)")
      else if bool_decide (node_type = "article") && (3 <? degree) then
        ("coordinated_edit",
         label +:+ " has " +:+ pretty degree
               +:+ " connections (IsolationForest outlier)")
      else
        ("structural_outlier",
         label +:+ " flagged as structural outlier by IsolationForest") in
    s <-- index scores i ;;
    let raw_score := (- s)%Q in
    let anomaly_score := Qmin (Qmax raw_score 0) 1 in
    Ok (Dict.set anomalies nid
          (mk_anomaly anomaly_type (py_round anomaly_score 3) details))
  else Ok anomalies.

Definition detect_anomalies (G : Graph.t) (node_map : node_map)
    (pagerank : list (string * Q)) : result (list (string * anomaly)) :=
  let anomalies := [] in
  if Graph.number_of_nodes G <? 5 then Ok anomalies
  else
    let node_ids := Graph.nodes G in
    clustering <-- nx_clustering G ;;
    let features :=
      (λ nid,
         let info := default no_attrs (Dict.get node_map nid) in
         let edit_count := default 0 (n_editCount info) in
         let degree := Graph.degree G nid in
         let clust := default 0%Q (Dict.get clustering nid) in
         let pr_score := default 0%Q (Dict.get pagerank nid) in
         [inject_Z edit_count; inject_Z degree; clust; pr_score])
      <$> node_ids in
    let valid_node_ids := node_ids in
    if len features <? 5 then Ok anomalies
    else
      X <-- np_array features ;;
      quotient <--
        (if len X =? 0 then Raise ZeroDivisionError
         else Ok (2 / inject_Z (len X))%Q) ;;
      let contamination := Qmin (1 # 10) (Qmax quotient (1 # 100)) in
      fitted <-- isolation_forest contamination X ;;
      let '(predictions, scores) := fitted in
      for_each (report_anomaly G node_map predictions scores)
        (enumerate valid_node_ids) anomalies.

(** [int(x)]: truncation towards zero. *)
Definition py_int (x : Q) : Z :=
  if Qlt_le_dec x 0 then Qceiling x else Qfloor x.

(** [np.median] of a non-empty array of integers. *)
Definition np_median (l : list Z) : Q :=
  let s := sorted_asc (inject_Z <$> l) in
  let n := length s in
  if Nat.even n
  then ((default 0 (s !! (n / 2 - 1)%nat) + default 0 (s !! (n / 2)%nat)) / 2)%Q
  else default 0%Q (s !! (n / 2)%nat).

(** [s.add(x)] on a set, kept as a duplicate-free list. *)
Definition set_add (s : list string) (x : string) : list string :=
  if bool_decide (x ∈ s) then s else s ++ [x].

Definition zero_community_eval : community_eval :=
  mk_community_eval 0 0 0 0 0.
Definition zero_pagerank_eval : pagerank_eval := mk_pagerank_eval 0 0 0 0.
Definition zero_hubs_eval : hubs_eval := mk_hubs_eval 0 0 0 0.
Definition zero_anomaly_eval : anomaly_eval := mk_anomaly_eval 0 0 0 0.

Definition evaluate_communities (G : Graph.t) (communities : list (string * Z))
  : community_eval :=
  if bool_decide (communities = []) || (Graph.number_of_edges G =? 0) then
    zero_community_eval
  else
    let comm_to_nodes :=
      fold_left
        (λ (comm_to_nodes : list (Z * list string)) '(node, comm_id),
           if bool_decide (node ∈ Graph.nodes G) then
             Dict.set comm_to_nodes comm_id
               (set_add (default [] (Dict.get comm_to_nodes comm_id)) node)
           else comm_to_nodes)
        communities [] in
    let partition := Dict.values comm_to_nodes in
    if bool_decide (partition = []) then zero_community_eval
    else
      let mod_ := default 0%Q (nx_modularity G partition) in
      let total := Graph.number_of_edges G in
      let node_to_comm :=
        fold_left
          (λ (node_to_comm : list (string * Z)) '(comm_id, nodes_set),
             fold_left (λ node_to_comm n, Dict.set node_to_comm n comm_id)
               nodes_set node_to_comm)
          (enumerate partition) [] in
      let intra :=
        len (filter
               (λ uv, Dict.get node_to_comm (fst uv) = Dict.get node_to_comm (snd uv))
               (Graph.edges G)) in
      let coverage :=
        if 0 <? total then py_round (inject_Z intra / inject_Z total) 3
        else 0%Q in
      let sizes := sorted_desc inject_Z (len <$> partition) in
      {| modularity := py_round mod_ 4;
         numCommunities := len partition;
         coverage := coverage;
         largestSize := default 0 (head sizes);
         medianSize :=
           match sizes with [] => 0 | _ => py_int (np_median sizes) end |}.

Definition evaluate_pagerank (pagerank : list (string * Q)) : pagerank_eval :=
  let values := Dict.values pagerank in
  let n := len values in
  if n =? 0 then zero_pagerank_eval
  else
    let arr := sorted_asc values in
    let mean := (sum_Q arr / inject_Z n)%Q in
    let gini :=
      if Qlt_le_dec 0 mean then
        (sum_Q (imap (λ i x, (2 * inject_Z (Z.of_nat i + 1) - inject_Z n - 1) * x)
                  arr)
         / (inject_Z n * inject_Z n * mean))%Q
      else 0%Q in
    let total := sum_Q arr in
    let entropy :=
      if Qlt_le_dec 0 total then
        let positive :=
          List.filter (λ x, if Qlt_le_dec 0 x then true else false) arr in
        let p := (λ x, x / total)%Q <$> positive in
        let entropy := (- sum_Q ((λ x, x * np_log2 x)%Q <$> p))%Q in
        let max_entropy := if 1 <? n then np_log2 (inject_Z n) else 1%Q in
        if Qlt_le_dec 0 max_entropy then (entropy / max_entropy)%Q else 0%Q
      else 0%Q in
    let top10_count := top_decile n in
    let top10_sum := sum_Q (drop (length arr - Z.to_nat top10_count) arr) in
    let top10pct :=
      if Qlt_le_dec 0 total then (top10_sum / total)%Q else 0%Q in
    {| gini := py_round gini 4;
       entropy := py_round entropy 4;
       top10pct := py_round top10pct 3;
       nodeCount := n |}.

Definition evaluate_hubs (hubs : list hub) : hubs_eval :=
  match hubs with
  | [] => zero_hubs_eval
  | first :: _ =>
      let degrees := h_degree <$> hubs in
      let max_degree := h_degree first in
      let total_degree := sum_Z degrees in
      let mean_degree :=
        py_round (inject_Z total_degree / inject_Z (len degrees)) 1 in
      let hub_concentration :=
        if 0 <? total_degree
        then py_round (inject_Z max_degree / inject_Z total_degree) 3
        else 0%Q in
      {| hubCount := len hubs;
         maxDegree := max_degree;
         meanDegree := mean_degree;
         hubConcentration := hub_concentration |}
  end.

Definition evaluate_anomalies (anomalies : list (string * anomaly))
  : anomaly_eval :=
  let entries := Dict.values anomalies in
  let prolific := filter (λ a, a_type a = "prolific_editor") entries in
  let coordinated := filter (λ a, a_type a = "coordinated_edit") entries in
  let avg_score :=
    match entries with
    | [] => 0%Q
    | _ => py_round (sum_Q (a_score <$> entries) / inject_Z (len entries)) 3
    end in
  {| totalCount := len entries;
     prolificEditors := len prolific;
     coordinatedEdits := len coordinated;
     avgScore := avg_score |}.

(** ** The handler of [POST /analyze] *)

Definition zeroed : results :=
  {| r_communities := [];
     r_pagerank := [];
     r_hubs := [];
     r_anomalies := [];
     r_evaluation :=
       {| ev_community := zero_community_eval;
          ev_pagerank := zero_pagerank_eval;
          ev_hubs := zero_hubs_eval;
          ev_anomaly := zero_anomaly_eval |} |}.

(** The [try] block. *)
Definition analyze_body (data : payload) : result results :=
  let nodes := default [] (p_nodes data) in
  let edges := default [] (p_edges data) in
  if len nodes <? 3 then Ok zeroed
  else
    built <-- build_graphs nodes edges ;;
    let '(G_undirected, G_directed, node_map) := built in
    let communities := detect_communities G_undirected in
    let pagerank := compute_pagerank G_directed in
    let hubs := detect_hubs G_undirected node_map in
    anomalies <-- detect_anomalies G_undirected node_map pagerank ;;
    let evaluation :=
      {| ev_community := evaluate_communities G_undirected communities;
         ev_pagerank := evaluate_pagerank pagerank;
         ev_hubs := evaluate_hubs hubs;
         ev_anomaly := evaluate_anomalies anomalies |} in
    Ok {| r_communities := communities;
          r_pagerank := pagerank;
          r_hubs := hubs;
          r_anomalies := anomalies;
          r_evaluation := evaluation |}.

Definition analyze (data : payload) : response :=
  match analyze_body data with
  | Ok r => Results r
  | Raise e => ErrorResponse (str_exn e) 500
  end.

End pipeline.

(** ** A sample request

    Three editors, two articles and an isolated page.  The second edge has
    neither a view nor a weight, the fourth is a coedit edge, the fifth
    repeats the first in the other direction, and the last one has a view
    that no graph takes and an endpoint that no node record declares. *)

Definition sample_nodes : list node_rec :=
  [ mk_node (Some "e1") (Some "Alice") (Some "editor") (Some 7) [];
    mk_node (Some "e2") None (Some "editor") (Some 1) [];
    mk_node (Some "e3") None (Some "editor") None [];
    mk_node (Some "a1") (Some "Rocq") (Some "article") None [];
    mk_node (Some "a2") None (Some "article") None [];
    mk_node (Some "z") None None None [] ].

Definition sample_edges : list edge_rec :=
  [ mk_edge (Some "e1") (Some "a1") (Some (Int 2)) (Some "bipartite");
    mk_edge (Some "e2") (Some "a1") None None;
    mk_edge (Some "e3") (Some "a2") None (Some "bipartite");
    mk_edge (Some "e1") (Some "e2") (Some (Int 3)) (Some "coedit");
    mk_edge (Some "a1") (Some "e1") (Some (Int 5)) (Some "bipartite");
    mk_edge (Some "e3") (Some "ghost") None (Some "mention") ].


(** The binary64 values of the JSON numbers 0.1, 0.2 and 0.3, and three
    edge records between one pair of nodes that weigh so much. *)
Definition float_0_1 : spec_float := S754_finite false 7205759403792794 (-56).
Definition float_0_2 : spec_float := S754_finite false 7205759403792794 (-55).
Definition float_0_3 : spec_float := S754_finite false 5404319552844595 (-54).

Definition float_nodes : list node_rec :=
  [ mk_node (Some "a") None None None [];
    mk_node (Some "b") None None None [];
    mk_node (Some "c") None None None [] ].

Definition float_edges : list edge_rec :=
  [ mk_edge (Some "a") (Some "b") (Some (Float float_0_1)) None;
    mk_edge (Some "a") (Some "b") (Some (Float float_0_2)) None;
    mk_edge (Some "a") (Some "b") (Some (Float float_0_3)) None ].

(** The graphs and the node index of the sample request. *)
Definition sample_graphs : graphs :=
  match build_graphs sample_nodes sample_edges with
  | Ok built => built
  | Raise _ => (Graph.empty, DiGraph.empty, [])
  end.

Definition sample_undirected : Graph.t := fst (fst sample_graphs).
Definition sample_directed : DiGraph.t := snd (fst sample_graphs).
Definition sample_node_map : node_map := snd sample_graphs.

(** A request with two nodes only, and one whose third node has no id. *)
Definition small_payload : payload :=
  mk_payload (Some (take 2 sample_nodes)) (Some sample_edges).

Definition malformed_payload : payload :=
  mk_payload (Some (take 2 sample_nodes ++ [no_attrs])) (Some sample_edges).

(** One implementation of the libraries, to run the pipeline on the sample:
    a single community, the out-degree plus one as raw influence score, no
    clustering, and a detector that flags the first row only. *)
Definition sample_libraries : Libraries :=
  {| louvain_communities G := Some [Graph.nodes G];
     nx_pagerank G :=
       Some ((λ n, (n, inject_Z (len (default [] (Dict.get (DiGraph.succ G) n))) + 1)%Q)
               <$> DiGraph.nodes G);
     nx_clustering G := Ok [];
     np_array features := Ok features;
     isolation_forest c X :=
       Ok (imap (λ i _, if (i =? 0)%nat then -1 else 1) X,
           imap (λ i _, if (i =? 0)%nat then (- (1 # 4))%Q else (1 # 4)%Q) X);
     nx_modularity G partition := Some 0%Q;
     np_log2 x := x;
     py_round x ndigits := Qred x |}.

(** An implementation whose Louvain, PageRank, IsolationForest and
    modularity calls all raise. *)
Definition failing_libraries : Libraries :=
  {| louvain_communities G := None;
     nx_pagerank G := None;
     nx_clustering G := Ok [];
     np_array features := Ok features;
     isolation_forest c X := Raise (LibraryError "contamination out of range");
     nx_modularity G partition := None;
     np_log2 x := x;
     py_round x ndigits := Qred x |}.

(** An implementation whose fitted detector flags the first and the fourth
    of six rows. *)
Definition flagging_libraries : Libraries :=
  {| louvain_communities G := Some [Graph.nodes G];
     nx_pagerank G := None;
     nx_clustering G := Ok [];
     np_array features := Ok features;
     isolation_forest c X :=
       Ok ([-1; 1; 1; -1; 1; 1],
           [- (3 # 2); 1 # 10; 1 # 10; - (1 # 5); 1 # 10; 1 # 10]%Q);
     nx_modularity G partition := Some 0%Q;
     np_log2 x := x;
     py_round x ndigits := Qred x |}.

(** A request with three node records and no edge list. *)
Definition three_node_payload : payload :=
  mk_payload (Some (take 3 sample_nodes)) None.

(** A view with a triangle: three nodes of positive degree. *)
Definition triangle : Graph.t :=
  Graph.add_edge
    (Graph.add_edge (Graph.add_edge Graph.empty "a" "b" (Int 1)) "b" "c" (Int 1))
    "c" "a" (Int 1).



(** The assignments [communities[node] = comm_id] that the loop over the
    detected communities makes, in order. *)
Definition community_assignments (communities_list : list (list string))
  : list (string * Z) :=
  enumerate communities_list ≫= (λ ic, (λ n, (n, fst ic)) <$> snd ic).

(** The edge record [e] with its view written out. *)
Definition with_view (e : edge_rec) (view : string) : edge_rec :=
  mk_edge (e_source e) (e_target e) (e_weight e) (Some view).

(** * Facts

    ** Dictionaries *)

Module DictFacts.
Import Dict.
Section dict.
Context {K V : Type} `{EqDecision K}.
Implicit Types (d : list (K * V)) (k : K) (v : V).

Lemma get_set_eq d k v : get (set d k v) k = Some v.
Proof.
  induction d as [|[k' v'] d IH]; simpl.
  - by rewrite decide_True.
  - destruct (decide (k = k')) as [->|Hne]; simpl.
    + by rewrite decide_True.
    + by rewrite decide_False.
Qed.

Lemma get_set_ne d k k' v : k ≠ k' → get (set d k v) k' = get d k'.
Proof.
  intros Hne. induction d as [|[k0 v0] d IH]; simpl.
  - by rewrite decide_False.
  - destruct (decide (k = k0)) as [->|Hne0]; simpl.
    + by rewrite !(decide_False (P := k' = k0)) by congruence.
    + destruct (decide (k' = k0)); [done | apply IH].
Qed.

Lemma get_set d k k' v :
  get (set d k v) k' = if decide (k = k') then Some v else get d k'.
Proof.
  destruct (decide (k = k')) as [->|Hne];
    [apply get_set_eq | by apply get_set_ne].
Qed.

Lemma mem_set d k k' v :
  mem (set d k v) k' = if decide (k = k') then true else mem d k'.
Proof. unfold mem. rewrite get_set. by destruct (decide (k = k')). Qed.

Lemma mem_keys d k : mem d k = true ↔ k ∈ keys d.
Proof.
  unfold mem, keys. induction d as [|[k' v'] d IH]; csimpl.
  - split; [done | intros H; inversion H].
  - destruct (decide (k = k')) as [->|Hne].
    + split; [intros _; left | done].
    + rewrite IH. split; [by right | ].
      intros H. inversion H; subst; [done | done].
Qed.

Lemma get_keys d k : is_Some (get d k) ↔ k ∈ keys d.
Proof.
  rewrite <- mem_keys. unfold mem.
  destruct (get d k); split; intros H; try done; try by eexists.
Qed.

Lemma keys_set d k v k' : k' ∈ keys (set d k v) ↔ k' = k ∨ k' ∈ keys d.
Proof.
  rewrite <- !mem_keys, mem_set.
  destruct (decide (k = k')) as [->|Hne]; [tauto | ].
  split; [by right | intros [->|H]; done].
Qed.

Lemma keys_set_mem d k v : mem d k = true → keys (set d k v) = keys d.
Proof.
  unfold mem, keys. induction d as [|[k' v'] d IH]; csimpl; [done | ].
  destruct (decide (k = k')) as [->|Hne]; csimpl; [done | ].
  intros H. f_equal. by apply IH.
Qed.

Lemma keys_set_fresh d k v : mem d k = false → keys (set d k v) = keys d ++ [k].
Proof.
  unfold mem, keys. induction d as [|[k' v'] d IH]; csimpl; [done | ].
  destruct (decide (k = k')) as [->|Hne]; csimpl; [done | ].
  intros H. f_equal. by apply IH.
Qed.

Lemma length_set d k v :
  length (set d k v) = if mem d k then length d else S (length d).
Proof.
  unfold mem. induction d as [|[k' v'] d IH]; simpl; [done | ].
  destruct (decide (k = k')) as [->|Hne]; simpl; [done | ].
  rewrite IH. by destruct (get d k).
Qed.

Lemma NoDup_keys_set d k v : NoDup (keys d) → NoDup (keys (set d k v)).
Proof.
  intros Hnd. destruct (mem d k) eqn:Hm.
  - by rewrite keys_set_mem.
  - rewrite keys_set_fresh by done.
    apply NoDup_app. split; [done | ]. split.
    + intros x Hx Hk. apply list_elem_of_singleton in Hk as ->.
      apply mem_keys in Hx. congruence.
    + apply NoDup_singleton.
Qed.

Lemma get_elem_of d k v : get d k = Some v → (k, v) ∈ d.
Proof.
  induction d as [|[k' v'] d IH]; simpl; [done | ].
  destruct (decide (k = k')) as [->|Hne].
  - intros [= ->]. left.
  - intros H. right. auto.
Qed.

Lemma elem_of_get d k v : NoDup (keys d) → (k, v) ∈ d → get d k = Some v.
Proof.
  unfold keys. induction d as [|[k' v'] d IH]; csimpl; intros Hnd Hin.
  - inversion Hin.
  - apply NoDup_cons in Hnd as [Hk' Hnd].
    destruct (decide (k = k')) as [->|Hne].
    + apply elem_of_cons in Hin as [[= ->]|Hin]; [done | ].
      exfalso. apply Hk'. apply list_elem_of_fmap. by exists (k', v).
    + apply elem_of_cons in Hin as [[= -> ->]|Hin]; [done | auto].
Qed.
End dict.
End DictFacts.

(** ** [networkx.Graph] *)

Module GraphFacts.
Import Graph.

Lemma wf_empty : wf empty.
Proof. split; unfold edge_loc, neighbors; simpl; done. Qed.

Lemma has_edge_loc G u v : has_edge G u v = true ↔ is_Some (edge_loc G u v).
Proof.
  unfold has_edge, edge_loc, neighbors, Dict.mem.
  destruct (Dict.get (adj G) u) as [nbrs|]; simpl.
  - destruct (Dict.get nbrs v); split; intros H; try done; try by eexists.
  - split; [done | by intros []].
Qed.

Lemma has_edge_false G u v : has_edge G u v = false ↔ edge_loc G u v = None.
Proof.
  rewrite <- not_true_iff_false, has_edge_loc, eq_None_not_Some. done.
Qed.

Lemma neighbors_link a u v l x :
  default [] (Dict.get (link a u v l) x) =
  if decide (u = x) then Dict.set (default [] (Dict.get a u)) v l
  else default [] (Dict.get a x).
Proof. unfold link. rewrite DictFacts.get_set. by destruct (decide (u = x)). Qed.

Lemma mem_link a u v l x :
  Dict.mem (link a u v l) x = if decide (u = x) then true else Dict.mem a x.
Proof. unfold link. by rewrite DictFacts.mem_set. Qed.

Lemma neighbors_add_node G n attrs x :
  wf G → neighbors (add_node G n attrs) x = neighbors G x.
Proof.
  intros Hwf. unfold add_node, neighbors.
  destruct (Dict.get (node G) n) eqn:Hn; simpl; [done | ].
  rewrite DictFacts.get_set. destruct (decide (n = x)) as [<-|]; [ | done].
  pose proof (wf_adj G Hwf n) as Ha. unfold Dict.mem in Ha.
  rewrite Hn in Ha. by destruct (Dict.get (adj G) n).
Qed.

Lemma nodes_add_node G n attrs x :
  x ∈ nodes (add_node G n attrs) ↔ x = n ∨ x ∈ nodes G.
Proof.
  unfold add_node, nodes.
  destruct (Dict.get (node G) n); simpl; apply DictFacts.keys_set.
Qed.

Lemma wf_add_node G n attrs : wf G → wf (add_node G n attrs).
Proof.
  intros Hwf.
  assert (Hloc : ∀ u v, edge_loc (add_node G n attrs) u v = edge_loc G u v).
  { intros u v. unfold edge_loc. by rewrite neighbors_add_node. }
  assert (Hdata : data (add_node G n attrs) = data G).
  { unfold add_node. by destruct (Dict.get (node G) n). }
  split.
  - intros x. unfold add_node.
    destruct (Dict.get (node G) n) eqn:Hn; simpl.
    + rewrite DictFacts.mem_set, (wf_adj G Hwf).
      destruct (decide (n = x)) as [<-|]; [ | done].
      unfold Dict.mem. by rewrite Hn.
    + rewrite !DictFacts.mem_set, (wf_adj G Hwf). done.
  - intros u v l. rewrite !Hloc. apply (wf_sym G Hwf).
  - intros u v u' v' l. rewrite !Hloc. apply (wf_inj G Hwf).
  - intros u v l. rewrite Hloc, Hdata. apply (wf_bound G Hwf).
Qed.

Lemma neighbors_touch G n x : wf G → neighbors (touch G n) x = neighbors G x.
Proof.
  intros Hwf. unfold touch, neighbors.
  destruct (Dict.mem (node G) n) eqn:Hn; simpl; [done | ].
  rewrite DictFacts.get_set. destruct (decide (n = x)) as [<-|]; [ | done].
  pose proof (wf_adj G Hwf n) as Ha. rewrite Hn in Ha.
  unfold Dict.mem in Ha. by destruct (Dict.get (adj G) n).
Qed.

Lemma data_touch G n : data (touch G n) = data G.
Proof. unfold touch. by destruct (Dict.mem (node G) n). Qed.

Lemma nodes_touch G n x : x ∈ nodes (touch G n) ↔ x = n ∨ x ∈ nodes G.
Proof.
  unfold touch, nodes. destruct (Dict.mem (node G) n) eqn:Hn; simpl.
  - apply DictFacts.mem_keys in Hn. split; [by right | by intros [->|]].
  - apply DictFacts.keys_set.
Qed.

Lemma wf_touch G n : wf G → wf (touch G n).
Proof.
  intros Hwf.
  assert (Hloc : ∀ u v, edge_loc (touch G n) u v = edge_loc G u v).
  { intros u v. unfold edge_loc. by rewrite neighbors_touch. }
  split.
  - intros x. unfold touch. destruct (Dict.mem (node G) n) eqn:Hn; simpl.
    + apply (wf_adj G Hwf).
    + rewrite !DictFacts.mem_set, (wf_adj G Hwf). done.
  - intros u v l. rewrite !Hloc. apply (wf_sym G Hwf).
  - intros u v u' v' l. rewrite !Hloc. apply (wf_inj G Hwf).
  - intros u v l. rewrite Hloc, data_touch. apply (wf_bound G Hwf).
Qed.

Lemma nodes_add_edge G u v w x :
  x ∈ nodes (add_edge G u v w) ↔ x = u ∨ x = v ∨ x ∈ nodes G.
Proof.
  unfold add_edge.
  assert (Hn : x ∈ nodes (touch (touch G u) v) ↔ x = u ∨ x = v ∨ x ∈ nodes G).
  { rewrite !nodes_touch. tauto. }
  destruct (Dict.get (neighbors (touch (touch G u) v) u) v); apply Hn.
Qed.

(** Adding an edge that is not there yet allocates one new attribute
    dictionary, reachable from both endpoints. *)
Lemma add_edge_fresh G u v w :
  wf G → edge_loc G u v = None →
  data (add_edge G u v w) = data G ++ [w] ∧
  ∀ x y, edge_loc (add_edge G u v w) x y =
         if decide ((x = u ∧ y = v) ∨ (x = v ∧ y = u))
         then Some (length (data G)) else edge_loc G x y.
Proof.
  intros Hwf Hnone.
  assert (Hnb : ∀ x, neighbors (touch (touch G u) v) x = neighbors G x).
  { intros x. rewrite !neighbors_touch; auto using wf_touch. }
  assert (Heq : add_edge G u v w =
    mk (node (touch (touch G u) v))
       (link (link (adj (touch (touch G u) v)) u v (length (data G))) v u
          (length (data G)))
       (data G ++ [w])).
  { unfold add_edge. rewrite Hnb. fold (edge_loc G u v). rewrite Hnone.
    by rewrite !data_touch. }
  rewrite Heq. split; [done | ].
  intros x y. unfold edge_loc at 1. unfold neighbors at 1. simpl.
  rewrite neighbors_link.
  destruct (decide (v = x)) as [<-|Hvx].
  - rewrite DictFacts.get_set, neighbors_link.
    destruct (decide (u = y)) as [<-|Huy].
    + rewrite decide_True by tauto. done.
    + destruct (decide (u = v)) as [<-|Huv].
      * rewrite DictFacts.get_set. fold (neighbors (touch (touch G u) u) u).
        rewrite Hnb. fold (edge_loc G u y).
        destruct (decide (u = y)); [done | ].
        rewrite decide_False; [done | intuition congruence].
      * fold (neighbors (touch (touch G u) v) v). rewrite Hnb.
        rewrite decide_False; [done | intuition congruence].
  - rewrite neighbors_link.
    destruct (decide (u = x)) as [<-|Hux].
    + rewrite DictFacts.get_set. fold (neighbors (touch (touch G u) v) u).
      rewrite Hnb. fold (edge_loc G u y).
      destruct (decide (v = y)) as [<-|Hvy].
      * rewrite decide_True by tauto. done.
      * rewrite decide_False; [done | intuition congruence].
    + fold (neighbors (touch (touch G u) v) x). rewrite Hnb.
      rewrite decide_False; [done | intuition congruence].
Qed.

Lemma wf_add_edge_fresh G u v w :
  wf G → edge_loc G u v = None → wf (add_edge G u v w).
Proof.
  intros Hwf Hnone.
  destruct (add_edge_fresh G u v w Hwf Hnone) as [Hdata Hloc].
  split.
  - intros x. unfold add_edge.
    pose proof (wf_adj _ (wf_touch _ v (wf_touch _ u Hwf)) x) as Hx.
    assert (Hin : ∀ y, y = u ∨ y = v →
      Dict.mem (node (touch (touch G u) v)) y = true).
    { intros y Hy. apply DictFacts.mem_keys.
      apply (nodes_touch (touch G u) v y). rewrite nodes_touch. tauto. }
    destruct (Dict.get (neighbors (touch (touch G u) v) u) v); simpl;
      rewrite !mem_link, Hx;
      destruct (decide (v = x)); destruct (decide (u = x));
      try done; symmetry; apply Hin; auto.
  - intros x y l. rewrite !Hloc.
    destruct (decide ((x = u ∧ y = v) ∨ (x = v ∧ y = u))) as [Hc|Hc].
    + intros [= <-]. rewrite decide_True by tauto. done.
    + intros Hl. rewrite decide_False by tauto. by apply (wf_sym G Hwf).
  - intros x y x' y' l. rewrite !Hloc.
    destruct (decide ((x = u ∧ y = v) ∨ (x = v ∧ y = u))) as [Hc|Hc];
      destruct (decide ((x' = u ∧ y' = v) ∨ (x' = v ∧ y' = u))) as [Hc'|Hc'].
    + intros _ _. intuition congruence.
    + intros [= <-] Hl. apply (wf_bound G Hwf) in Hl. lia.
    + intros Hl [= <-]. apply (wf_bound G Hwf) in Hl. lia.
    + apply (wf_inj G Hwf).
  - intros x y l. rewrite Hloc, Hdata, length_app. simpl.
    destruct (decide ((x = u ∧ y = v) ∨ (x = v ∧ y = u))).
    + intros [= <-]. lia.
    + intros Hl. apply (wf_bound G Hwf) in Hl. lia.
Qed.

(** [+=] on the weight of an existing edge changes one attribute
    dictionary and nothing else. *)
Lemma weight_iadd_spec G u v w l :
  wf G → edge_loc G u v = Some l →
  ∃ x, data G !! l = Some x ∧
       weight_iadd G u v w =
       (sum <-- py_add x w ;; Ok (mk (node G) (adj G) (<[l := sum]> (data G)))).
Proof.
  intros Hwf Hl. pose proof (wf_bound G Hwf _ _ _ Hl) as Hlt.
  destruct (lookup_lt_is_Some_2 (data G) l Hlt) as [x Hx].
  exists x. split; [done | ].
  unfold weight_iadd. unfold edge_loc, neighbors in Hl.
  destruct (Dict.get (adj G) u) as [nbrs|]; simpl in *; [ | done].
  rewrite Hl. simpl. rewrite Hx. done.
Qed.

Lemma wf_set_data G l x :
  wf G → wf (mk (node G) (adj G) (<[l := x]> (data G))).
Proof.
  intros Hwf. split; simpl.
  - apply (wf_adj G Hwf).
  - apply (wf_sym G Hwf).
  - apply (wf_inj G Hwf).
  - intros u v l'. rewrite length_insert. apply (wf_bound G Hwf).
Qed.

End GraphFacts.

(** ** [networkx.DiGraph] *)

Module DiGraphFacts.
Import DiGraph.

Lemma dwf_empty : wf empty.
Proof. by split. Qed.

Lemma has_edge_weight G u v :
  has_edge G u v = true ↔ is_Some (succ_weight G u v).
Proof.
  unfold has_edge, succ_weight, Dict.mem.
  destruct (Dict.get (succ G) u) as [nbrs|]; simpl.
  - destruct (Dict.get nbrs v); split; intros H; try done; try by eexists.
  - split; [done | by intros []].
Qed.

Lemma has_arc_false G u v :
  has_edge G u v = false ↔ succ_weight G u v = None.
Proof.
  rewrite <- not_true_iff_false, has_edge_weight, eq_None_not_Some. done.
Qed.

Lemma weight_succ_weight G u v w :
  succ_weight G u v = Some w → weight G u v = Ok w.
Proof.
  unfold succ_weight, weight.
  destruct (Dict.get (succ G) u) as [nbrs|]; simpl; [ | done].
  by intros ->.
Qed.

Lemma dnodes_add_node G n attrs x :
  x ∈ nodes (add_node G n attrs) ↔ x = n ∨ x ∈ nodes G.
Proof.
  unfold add_node, nodes.
  destruct (Dict.get (node G) n); simpl; apply DictFacts.keys_set.
Qed.

Lemma succ_weight_add_node G n attrs u v :
  wf G → succ_weight (add_node G n attrs) u v = succ_weight G u v.
Proof.
  intros Hwf. unfold add_node, succ_weight.
  destruct (Dict.get (node G) n) eqn:Hn; simpl; [done | ].
  rewrite DictFacts.get_set. destruct (decide (n = u)) as [<-|]; [ | done].
  pose proof (wf_succ G Hwf n) as Ha. unfold Dict.mem in Ha.
  rewrite Hn in Ha. by destruct (Dict.get (succ G) n).
Qed.

Lemma dwf_add_node G n attrs : wf G → wf (add_node G n attrs).
Proof.
  intros Hwf. unfold add_node.
  destruct (Dict.get (node G) n) eqn:Hn; split; intros x; simpl;
    rewrite ?DictFacts.mem_set, ?(wf_succ G Hwf), ?(wf_pred G Hwf); try done;
    destruct (decide (n = x)) as [<-|]; try done; unfold Dict.mem; by rewrite Hn.
Qed.

Lemma dnodes_touch G n x : x ∈ nodes (touch G n) ↔ x = n ∨ x ∈ nodes G.
Proof.
  unfold touch, nodes. destruct (Dict.mem (node G) n) eqn:Hn; simpl.
  - apply DictFacts.mem_keys in Hn. split; [by right | by intros [->|]].
  - apply DictFacts.keys_set.
Qed.

Lemma succ_weight_touch G n u v :
  wf G → succ_weight (touch G n) u v = succ_weight G u v.
Proof.
  intros Hwf. unfold touch, succ_weight.
  destruct (Dict.mem (node G) n) eqn:Hn; simpl; [done | ].
  rewrite DictFacts.get_set. destruct (decide (n = u)) as [<-|]; [ | done].
  pose proof (wf_succ G Hwf n) as Ha. rewrite Hn in Ha.
  unfold Dict.mem in Ha. by destruct (Dict.get (succ G) n).
Qed.

Lemma dwf_touch G n : wf G → wf (touch G n).
Proof.
  intros Hwf. unfold touch.
  destruct (Dict.mem (node G) n) eqn:Hn; [done | ].
  split; intros x; simpl;
    by rewrite !DictFacts.mem_set, ?(wf_succ G Hwf), ?(wf_pred G Hwf).
Qed.

Lemma dnodes_add_edge G u v w x :
  x ∈ nodes (add_edge G u v w) ↔ x = u ∨ x = v ∨ x ∈ nodes G.
Proof.
  unfold add_edge, nodes. simpl.
  fold (nodes (touch (touch G u) v)). rewrite !dnodes_touch. tauto.
Qed.

Lemma succ_weight_add_edge G u v w x y :
  wf G →
  succ_weight (add_edge G u v w) x y =
  if decide (x = u ∧ y = v) then Some w else succ_weight G x y.
Proof.
  intros Hwf.
  assert (Ht : ∀ a b, succ_weight (touch (touch G u) v) a b = succ_weight G a b).
  { intros a b. rewrite !succ_weight_touch; auto using dwf_touch. }
  unfold add_edge, succ_weight at 1. simpl. unfold link.
  rewrite DictFacts.get_set. destruct (decide (u = x)) as [<-|Hux]; simpl.
  - rewrite DictFacts.get_set. destruct (decide (v = y)) as [<-|Hvy].
    + by rewrite decide_True.
    + rewrite decide_False by intuition congruence. apply Ht.
  - rewrite decide_False by intuition congruence. apply Ht.
Qed.

Lemma dwf_add_edge G u v w : wf G → wf (add_edge G u v w).
Proof.
  intros Hwf.
  pose proof (dwf_touch _ v (dwf_touch _ u Hwf)) as Hwf'.
  assert (Hin : ∀ y, y = u ∨ y = v →
    Dict.mem (node (touch (touch G u) v)) y = true).
  { intros y Hy. apply DictFacts.mem_keys.
    apply (dnodes_touch (touch G u) v y). rewrite dnodes_touch. tauto. }
  unfold add_edge. split; intros x; simpl; unfold link;
    rewrite DictFacts.mem_set, ?(wf_succ _ Hwf'), ?(wf_pred _ Hwf');
    case_decide; try done; symmetry; apply Hin; auto.
Qed.

End DiGraphFacts.

(** ** [build_graphs] *)

Lemma joins_sym e u v : joins e u v ↔ joins e v u.
Proof. unfold joins. tauto. Qed.

Lemma joins_ends e s t u v :
  e_source e = Some s → e_target e = Some t →
  joins e u v ↔ (u = s ∧ v = t) ∨ (u = t ∧ v = s).
Proof. unfold joins. intros -> ->. intuition congruence. Qed.

Lemma joins_endpoint e u v : joins e u v → endpoint e u ∧ endpoint e v.
Proof. unfold joins, endpoint. tauto. Qed.

Lemma sum_Z_cons x l : sum_Z (x :: l) = x + sum_Z l.
Proof. done. Qed.

Lemma sum_Z_app l1 l2 : sum_Z (l1 ++ l2) = sum_Z l1 + sum_Z l2.
Proof. unfold sum_Z. induction l1 as [|x l1 IH]; simpl; lia. Qed.

Lemma sum_Z_perm l1 l2 : l1 ≡ₚ l2 → sum_Z l1 = sum_Z l2.
Proof. unfold sum_Z. induction 1; simpl; lia. Qed.

Lemma undirected_between_snoc es e u v :
  undirected_between (es ++ [e]) u v =
  undirected_between es u v ++
  (if decide (in_undirected e ∧ joins e u v) then [e] else []).
Proof. unfold undirected_between. rewrite filter_app. by f_equal. Qed.

Lemma directed_between_snoc es e u v :
  directed_between (es ++ [e]) u v =
  directed_between es u v ++
  (if decide (in_directed e ∧ joins e u v) then [e] else []).
Proof. unfold directed_between. rewrite filter_app. by f_equal. Qed.

Lemma undirected_between_sym es u v :
  undirected_between es u v = undirected_between es v u.
Proof.
  unfold undirected_between. apply list_filter_iff.
  intros e. by rewrite joins_sym.
Qed.

Lemma directed_between_sym es u v :
  directed_between es u v = directed_between es v u.
Proof.
  unfold directed_between. apply list_filter_iff.
  intros e. by rewrite joins_sym.
Qed.

Lemma add_in_order_snoc w0 ws x :
  add_in_order w0 (ws ++ [x]) = (sum <-- add_in_order w0 ws ;; py_add sum x).
Proof. unfold add_in_order. by rewrite fold_left_app. Qed.

Lemma pair_weight_nil es u v :
  undirected_between es u v = [] → pair_weight es u v = Ok (Int 0).
Proof. unfold pair_weight. by intros ->. Qed.

Lemma pair_weight_snoc_skip es e u v :
  ¬ (in_undirected e ∧ joins e u v) →
  pair_weight (es ++ [e]) u v = pair_weight es u v.
Proof.
  intros Hc. unfold pair_weight.
  by rewrite undirected_between_snoc, decide_False, app_nil_r.
Qed.

Lemma pair_weight_snoc_fresh es e u v :
  in_undirected e ∧ joins e u v → undirected_between es u v = [] →
  pair_weight (es ++ [e]) u v = Ok (weight_of e).
Proof.
  intros Hc Hnil. unfold pair_weight.
  by rewrite undirected_between_snoc, decide_True, Hnil.
Qed.

Lemma pair_weight_snoc_more es e u v :
  in_undirected e ∧ joins e u v → undirected_between es u v ≠ [] →
  pair_weight (es ++ [e]) u v =
  (sum <-- pair_weight es u v ;; py_add sum (weight_of e)).
Proof.
  intros Hc Hne. unfold pair_weight.
  rewrite undirected_between_snoc, decide_True by done.
  destruct (undirected_between es u v) as [|e0 l]; [done | ].
  rewrite fmap_app. csimpl. unfold add_all. apply add_in_order_snoc.
Qed.

Lemma pair_weight_sym es u v : pair_weight es u v = pair_weight es v u.
Proof. unfold pair_weight. by rewrite undirected_between_sym. Qed.

(** The one exception of [+] on numbers. *)
Lemma py_add_raise a b ex : py_add a b = Raise ex → ex = OverflowError.
Proof.
  destruct a as [x|x], b as [y|y]; cbn [py_add]; try done.
  - unfold float_of_int. destruct (binary_normalize 53 1024 x 0 false);
      cbn [bind]; congruence.
  - unfold float_of_int. destruct (binary_normalize 53 1024 y 0 false);
      cbn [bind]; congruence.
Qed.

Lemma pair_weight_raise es u v ex :
  pair_weight es u v = Raise ex → ex = OverflowError.
Proof.
  induction es as [|e es IH] using rev_ind; [done | ].
  destruct (decide (in_undirected e ∧ joins e u v)) as [Hc|Hc].
  - destruct (decide (undirected_between es u v = [])) as [Hnil|Hne].
    + by rewrite pair_weight_snoc_fresh.
    + rewrite pair_weight_snoc_more by done.
      destruct (pair_weight es u v) as [x|ex']; cbn [bind].
      * apply py_add_raise.
      * intros [= <-]. by apply IH.
  - by rewrite pair_weight_snoc_skip.
Qed.

(** An addition that raised has raised for every longer edge list. *)
Lemma pair_weight_mono es es' u v ex :
  pair_weight es u v = Raise ex → pair_weight (es ++ es') u v = Raise ex.
Proof.
  intros Hr. induction es' as [|e es' IH] using rev_ind.
  - by rewrite app_nil_r.
  - rewrite app_assoc.
    destruct (decide (in_undirected e ∧ joins e u v)) as [Hc|Hc].
    + rewrite pair_weight_snoc_more; [by rewrite IH | done | ].
      intros Hnil. apply pair_weight_nil in Hnil. congruence.
    + by rewrite pair_weight_snoc_skip.
Qed.

Lemma weights_add_prefix es es' : weights_add (es ++ es') → weights_add es.
Proof.
  intros Ha u v. destruct (pair_weight es u v) as [w|ex] eqn:Hw; [by eexists | ].
  destruct (Ha u v) as [w Hw']. rewrite (pair_weight_mono _ es' _ _ _ Hw) in Hw'.
  done.
Qed.

Lemma pair_sum_snoc es e u v :
  pair_sum (es ++ [e]) u v =
  pair_sum es u v +
  (if decide (in_undirected e ∧ joins e u v)
   then int_value (weight_of e) else 0).
Proof.
  unfold pair_sum. rewrite undirected_between_snoc, fmap_app, sum_Z_app.
  destruct (decide (in_undirected e ∧ joins e u v)); simpl; lia.
Qed.

(** Integer weights add up to their exact sum. *)
Lemma pair_weight_int es u v :
  Forall int_weighted es → pair_weight es u v = Ok (Int (pair_sum es u v)).
Proof.
  induction es as [|e es IH] using rev_ind; [done | ].
  intros [Hes [He _]%Forall_cons]%Forall_app. specialize (IH Hes).
  rewrite pair_sum_snoc.
  unfold int_weighted in He.
  destruct (decide (in_undirected e ∧ joins e u v)) as [Hc|Hc].
  - destruct (decide (undirected_between es u v = [])) as [Hnil|Hne].
    + rewrite pair_weight_snoc_fresh by done.
      unfold pair_sum. rewrite Hnil. simpl. by rewrite He.
    + rewrite pair_weight_snoc_more, IH by done. cbn [bind].
      rewrite He. done.
  - rewrite pair_weight_snoc_skip, IH, Z.add_0_r by done. done.
Qed.

Lemma weights_add_int es : Forall int_weighted es → weights_add es.
Proof. intros Hes u v. eexists. by apply pair_weight_int. Qed.

Lemma first_weight_snoc es e u v :
  first_weight (es ++ [e]) u v =
  match first_weight es u v with
  | Some w => Some w
  | None => if decide (in_directed e ∧ joins e u v)
            then Some (weight_of e) else None
  end.
Proof.
  unfold first_weight. rewrite directed_between_snoc.
  destruct (directed_between es u v); simpl; [ | done].
  by destruct (decide (in_directed e ∧ joins e u v)).
Qed.

Lemma first_weight_sym es u v : first_weight es u v = first_weight es v u.
Proof. unfold first_weight. by rewrite directed_between_sym. Qed.

Lemma first_weight_None es u v :
  first_weight es u v = None ↔ directed_between es u v = [].
Proof. unfold first_weight. by destruct (directed_between es u v). Qed.

Lemma between_nonempty {A} (P : A → Prop) `{∀ x, Decision (P x)} (l : list A) :
  filter P l ≠ [] ↔ ∃ x, x ∈ l ∧ P x.
Proof.
  split.
  - destruct (filter P l) as [|x l'] eqn:Hf; [done | ]. intros _.
    assert (Hx : x ∈ filter P l) by (rewrite Hf; left).
    apply list_elem_of_filter in Hx. exists x. tauto.
  - intros (x & Hx & HP) Hf.
    assert (Hin : x ∈ filter P l) by (apply list_elem_of_filter; tauto).
    rewrite Hf in Hin. inversion Hin.
Qed.

(** How the node set of a view follows the edge list: an edge record that
    the view does not take, or whose endpoints are nodes already, leaves
    it as it is; one that is added brings its two endpoints. *)
Lemma nodes_snoc_keep (P : edge_rec → Prop) (D : list string) es e
    (N : string → Prop) :
  (∀ x, N x ↔ x ∈ D ∨ ∃ e', e' ∈ es ∧ P e' ∧ endpoint e' x) →
  (P e → ∀ x, endpoint e x → N x) →
  ∀ x, N x ↔ x ∈ D ∨ ∃ e', e' ∈ es ++ [e] ∧ P e' ∧ endpoint e' x.
Proof.
  intros HN Hold x. split.
  - intros [HD|(e' & He' & Hq' & Hx)]%HN; [by left | right].
    exists e'. rewrite elem_of_app. tauto.
  - intros [HD|(e' & He' & Hq' & Hx)]; [apply HN; by left | ].
    apply elem_of_app in He' as [He'|He'].
    + apply HN. right. exists e'. tauto.
    + apply list_elem_of_singleton in He' as ->. by apply Hold.
Qed.

Lemma nodes_snoc_add (P : edge_rec → Prop) (D : list string) es e src tgt
    (N N' : string → Prop) :
  (∀ x, N x ↔ x ∈ D ∨ ∃ e', e' ∈ es ∧ P e' ∧ endpoint e' x) →
  P e → (∀ x, endpoint e x ↔ x = src ∨ x = tgt) →
  (∀ x, N' x ↔ x = src ∨ x = tgt ∨ N x) →
  ∀ x, N' x ↔ x ∈ D ∨ ∃ e', e' ∈ es ++ [e] ∧ P e' ∧ endpoint e' x.
Proof.
  intros HN HP Hend HN' x. rewrite HN', HN. split.
  - intros [Hx|[Hx|[HD|(e' & He' & Hq' & Hx)]]].
    + right. exists e. rewrite elem_of_app, list_elem_of_singleton, Hend. tauto.
    + right. exists e. rewrite elem_of_app, list_elem_of_singleton, Hend. tauto.
    + by left.
    + right. exists e'. rewrite elem_of_app. tauto.
  - intros [HD|(e' & He' & Hq' & Hx)]; [tauto | ].
    apply elem_of_app in He' as [He'|He'].
    + right; right; right. exists e'. tauto.
    + apply list_elem_of_singleton in He' as ->. apply Hend in Hx. tauto.
Qed.

Lemma in_undirected_bool e :
  bool_decide (view_of e = BIPARTITE) || bool_decide (view_of e = COEDIT)
  = bool_decide (in_undirected e).
Proof.
  unfold in_undirected.
  repeat case_bool_decide; simpl; try done; exfalso; tauto.
Qed.

Lemma und_inv_present D es G u v l :
  und_inv D es G → Graph.edge_loc G u v = Some l →
  ∃ e, e ∈ es ∧ in_undirected e ∧ joins e u v.
Proof.
  intros Hinv Hl.
  assert (Hne : undirected_between es u v ≠ []).
  { intros Hnil. apply (ui_edge _ _ _ Hinv) in Hnil. congruence. }
  apply between_nonempty in Hne. exact Hne.
Qed.

Lemma und_inv_stored D es G u v l :
  und_inv D es G → Graph.edge_loc G u v = Some l →
  undirected_between es u v ≠ [].
Proof.
  intros Hinv Hl Hnil. apply (ui_edge _ _ _ Hinv) in Hnil. congruence.
Qed.

Lemma und_step D es G e src tgt :
  und_inv D es G → e_source e = Some src → e_target e = Some tgt →
  match
    (if bool_decide (view_of e = BIPARTITE) || bool_decide (view_of e = COEDIT)
     then if Graph.has_edge G src tgt
          then Graph.weight_iadd G src tgt (weight_of e)
          else Ok (Graph.add_edge G src tgt (weight_of e))
     else Ok G)
  with
  | Ok G' => und_inv D (es ++ [e]) G'
  | Raise ex =>
      ex = OverflowError ∧ pair_weight (es ++ [e]) src tgt = Raise OverflowError
  end.
Proof.
  intros Hinv Hs Ht.
  assert (Hj := λ u v, joins_ends e src tgt u v Hs Ht).
  pose proof (ui_wf _ _ _ Hinv) as Hwf.
  assert (Hend : ∀ y, endpoint e y ↔ y = src ∨ y = tgt).
  { intros y. unfold endpoint. rewrite Hs, Ht. intuition congruence. }
  rewrite in_undirected_bool.
  destruct (decide (in_undirected e)) as [Hq|Hq].
  - rewrite bool_decide_eq_true_2 by done.
    destruct (Graph.has_edge G src tgt) eqn:Hhe.
    + apply GraphFacts.has_edge_loc in Hhe as [l Hl].
      destruct (GraphFacts.weight_iadd_spec G src tgt (weight_of e) l Hwf Hl)
        as (x & Hx & ->).
      assert (Hloc : ∀ u v, joins e u v → Graph.edge_loc G u v = Some l).
      { intros u v [[-> ->]|[-> ->]]%Hj; [done | ].
        by apply (Graph.wf_sym G Hwf). }
      assert (Hold : ∀ u v, joins e u v → pair_weight es u v = Ok x).
      { intros u v Hc.
        destruct (ui_weight _ _ _ Hinv u v l (Hloc u v Hc)) as (w & Hw & ->).
        congruence. }
      assert (Hnew : ∀ u v, joins e u v →
        pair_weight (es ++ [e]) u v = py_add x (weight_of e)).
      { intros u v Hc. rewrite pair_weight_snoc_more.
        - by rewrite (Hold u v Hc).
        - done.
        - by apply (und_inv_stored D es G u v l), Hloc. }
      assert (Hst : joins e src tgt) by (apply Hj; tauto).
      destruct (py_add x (weight_of e)) as [sum|ex] eqn:Hadd; cbn [bind].
      2:{ apply py_add_raise in Hadd as ->. split; [done | by apply Hnew]. }
      split.
      * by apply GraphFacts.wf_set_data.
      * apply (nodes_snoc_keep in_undirected D es e (λ y, y ∈ Graph.nodes G));
          [apply (ui_nodes _ _ _ Hinv) | ].
        intros _ y Hy. apply (ui_nodes _ _ _ Hinv). right.
        destruct (und_inv_present _ _ _ _ _ _ Hinv Hl) as (e0 & ? & ? & Hj0).
        apply joins_endpoint in Hj0 as [? ?].
        exists e0. apply Hend in Hy as [->| ->]; tauto.
      * intros u v. change (Graph.edge_loc _ u v) with (Graph.edge_loc G u v).
        rewrite undirected_between_snoc.
        destruct (decide (in_undirected e ∧ joins e u v)) as [[_ Hc]|Hc].
        -- rewrite (Hloc u v Hc). split; [done | ].
           intros Hnil. by apply app_eq_nil in Hnil as [_ ?].
        -- rewrite app_nil_r. apply (ui_edge _ _ _ Hinv).
      * intros u v l'. change (Graph.edge_loc _ u v) with (Graph.edge_loc G u v).
        intros Hl'. simpl.
        destruct (decide (in_undirected e ∧ joins e u v)) as [[_ Hc]|Hc].
        -- rewrite (Hloc u v Hc) in Hl'. injection Hl' as <-.
           exists sum. split; [ | by apply Hnew].
           apply list_lookup_insert_eq. by eapply lookup_lt_Some.
        -- rewrite pair_weight_snoc_skip by done.
           rewrite list_lookup_insert_ne; [by apply (ui_weight _ _ _ Hinv) | ].
           intros <-. apply Hc. split; [done | ].
           apply Hj. destruct (Graph.wf_inj G Hwf _ _ _ _ _ Hl' Hl); tauto.
    + apply GraphFacts.has_edge_false in Hhe.
      destruct (GraphFacts.add_edge_fresh G src tgt (weight_of e) Hwf Hhe)
        as [Hdata Hloc].
      assert (Hnone : ∀ u v, joins e u v → undirected_between es u v = []).
      { intros u v [[-> ->]|[-> ->]]%Hj.
        - by apply (ui_edge _ _ _ Hinv).
        - apply (ui_edge _ _ _ Hinv).
          destruct (Graph.edge_loc G tgt src) as [l|] eqn:Hl; [ | done].
          apply (Graph.wf_sym G Hwf) in Hl. congruence. }
      split.
      * by apply GraphFacts.wf_add_edge_fresh.
      * apply (nodes_snoc_add in_undirected D es e src tgt
                 (λ y, y ∈ Graph.nodes G)); [ | done | done | ].
        -- apply (ui_nodes _ _ _ Hinv).
        -- intros y. apply GraphFacts.nodes_add_edge.
      * intros u v. rewrite Hloc, undirected_between_snoc.
        destruct (decide (in_undirected e ∧ joins e u v)) as [[_ Hc]|Hc].
        -- rewrite decide_True by (by apply Hj). split; [done | ].
           intros Hnil. by apply app_eq_nil in Hnil as [_ ?].
        -- rewrite decide_False by (rewrite <- Hj; tauto).
           rewrite app_nil_r. apply (ui_edge _ _ _ Hinv).
      * intros u v l'. rewrite Hloc, Hdata.
        destruct (decide (in_undirected e ∧ joins e u v)) as [[_ Hc]|Hc].
        -- rewrite decide_True by (by apply Hj). intros [= <-].
           exists (weight_of e). split.
           ++ by rewrite lookup_app_r, Nat.sub_diag by lia.
           ++ apply pair_weight_snoc_fresh; [done | by apply Hnone].
        -- rewrite decide_False by (rewrite <- Hj; tauto). intros Hl'.
           rewrite lookup_app_l by (by eapply Graph.wf_bound).
           rewrite pair_weight_snoc_skip by done.
           by apply (ui_weight _ _ _ Hinv).
  - rewrite bool_decide_eq_false_2 by done. split.
    + done.
    + by apply (nodes_snoc_keep in_undirected D es e (λ y, y ∈ Graph.nodes G));
        [apply (ui_nodes _ _ _ Hinv) | ].
    + intros u v. rewrite undirected_between_snoc.
      rewrite decide_False by tauto. rewrite app_nil_r.
      apply (ui_edge _ _ _ Hinv).
    + intros u v l Hl. rewrite pair_weight_snoc_skip by tauto.
      by apply (ui_weight _ _ _ Hinv).
Qed.

Lemma dir_inv_present D es G u v w :
  dir_inv D es G → DiGraph.succ_weight G u v = Some w →
  ∃ e, e ∈ es ∧ in_directed e ∧ joins e u v.
Proof.
  intros Hinv Hw. rewrite (di_weight _ _ _ Hinv) in Hw.
  assert (Hne : directed_between es u v ≠ []).
  { intros Hnil. apply first_weight_None in Hnil. congruence. }
  apply between_nonempty in Hne. exact Hne.
Qed.

Lemma dir_step D es G e src tgt :
  dir_inv D es G → e_source e = Some src → e_target e = Some tgt →
  dir_inv D (es ++ [e])
    (if bool_decide (view_of e = BIPARTITE) then
       let G1 :=
         if negb (DiGraph.has_edge G src tgt)
         then DiGraph.add_edge G src tgt (weight_of e) else G in
       if negb (DiGraph.has_edge G1 tgt src)
       then DiGraph.add_edge G1 tgt src (weight_of e) else G1
     else G).
Proof.
  intros Hinv Hs Ht.
  assert (Hj := λ u v, joins_ends e src tgt u v Hs Ht).
  pose proof (di_wf _ _ _ Hinv) as Hwf.
  assert (Hend : ∀ y, endpoint e y ↔ y = src ∨ y = tgt).
  { intros y. unfold endpoint. rewrite Hs, Ht. intuition congruence. }
  fold (in_directed e).
  destruct (decide (in_directed e)) as [Hq|Hq].
  - rewrite bool_decide_eq_true_2 by done. cbv zeta.
    destruct (DiGraph.has_edge G src tgt) eqn:Hhe; simpl.
    + apply DiGraphFacts.has_edge_weight in Hhe as [w Hw].
      assert (Hw' : DiGraph.succ_weight G tgt src = Some w).
      { rewrite (di_weight _ _ _ Hinv), first_weight_sym.
        by rewrite <- (di_weight _ _ _ Hinv). }
      assert (Hhe' : DiGraph.has_edge G tgt src = true).
      { apply DiGraphFacts.has_edge_weight. by eexists. }
      rewrite Hhe'. simpl. split.
      * done.
      * apply (nodes_snoc_keep in_directed D es e (λ y, y ∈ DiGraph.nodes G));
          [apply (di_nodes _ _ _ Hinv) | ].
        intros _ y Hy. apply (di_nodes _ _ _ Hinv). right.
        destruct (dir_inv_present _ _ _ _ _ _ Hinv Hw) as (e0 & ? & ? & Hj0).
        apply joins_endpoint in Hj0 as [? ?].
        exists e0. apply Hend in Hy as [->| ->]; tauto.
      * intros u v. rewrite first_weight_snoc, <- (di_weight _ _ _ Hinv).
        destruct (DiGraph.succ_weight G u v) eqn:Huv; [done | ].
        rewrite decide_False; [done | ].
        intros [_ [[-> ->]|[-> ->]]%Hj]; congruence.
    + apply DiGraphFacts.has_arc_false in Hhe.
      assert (Hhe' : DiGraph.succ_weight G tgt src = None).
      { rewrite (di_weight _ _ _ Hinv), first_weight_sym.
        by rewrite <- (di_weight _ _ _ Hinv). }
      pose proof (DiGraphFacts.dwf_add_edge G src tgt (weight_of e) Hwf) as Hwf1.
      set (G1 := DiGraph.add_edge G src tgt (weight_of e)) in *.
      assert (H1 : ∀ x y, DiGraph.succ_weight G1 x y =
        if decide (x = src ∧ y = tgt) then Some (weight_of e)
        else DiGraph.succ_weight G x y).
      { intros x y. by apply DiGraphFacts.succ_weight_add_edge. }
      set (G2 := if negb (DiGraph.has_edge G1 tgt src)
                 then DiGraph.add_edge G1 tgt src (weight_of e) else G1).
      assert (H2 : DiGraph.wf G2 ∧
        (∀ x, x ∈ DiGraph.nodes G2 ↔ x = src ∨ x = tgt ∨ x ∈ DiGraph.nodes G) ∧
        ∀ x y, DiGraph.succ_weight G2 x y =
          if decide (joins e x y) then Some (weight_of e)
          else DiGraph.succ_weight G x y).
      { subst G2. destruct (DiGraph.has_edge G1 tgt src) eqn:Hts; simpl.
        - apply DiGraphFacts.has_edge_weight in Hts as [w Hw].
          rewrite H1 in Hw.
          destruct (decide (tgt = src ∧ src = tgt)) as [[-> _]|]; [ | congruence].
          split; [done | ]. split.
          + intros x. subst G1. rewrite DiGraphFacts.dnodes_add_edge. tauto.
          + intros x y. rewrite H1.
            destruct (decide (x = src ∧ y = src)) as [Hc|Hc].
            * rewrite decide_True; [done | apply Hj; tauto].
            * rewrite decide_False; [done | rewrite Hj; tauto].
        - split; [by apply DiGraphFacts.dwf_add_edge | ]. split.
          + intros x. subst G1. rewrite !DiGraphFacts.dnodes_add_edge. tauto.
          + intros x y. rewrite DiGraphFacts.succ_weight_add_edge, H1 by done.
            destruct (decide (x = tgt ∧ y = src)) as [Hc|Hc].
            * rewrite decide_True; [done | apply Hj; tauto].
            * destruct (decide (x = src ∧ y = tgt)) as [Hc'|Hc'].
              -- rewrite decide_True; [done | apply Hj; tauto].
              -- rewrite decide_False; [done | rewrite Hj; tauto]. }
      destruct H2 as (Hwf2 & Hn2 & Hw2). split.
      * done.
      * by apply (nodes_snoc_add in_directed D es e src tgt
                    (λ y, y ∈ DiGraph.nodes G));
          [apply (di_nodes _ _ _ Hinv) | | | ].
      * intros u v. rewrite Hw2, first_weight_snoc, <- (di_weight _ _ _ Hinv).
        destruct (decide (joins e u v)) as [Hc|Hc].
        -- rewrite decide_True by done.
           apply Hj in Hc as [[-> ->]|[-> ->]]; by rewrite ?Hhe, ?Hhe'.
        -- rewrite decide_False by tauto.
           by destruct (DiGraph.succ_weight G u v).
  - rewrite bool_decide_eq_false_2 by done. split.
    + done.
    + by apply (nodes_snoc_keep in_directed D es e (λ y, y ∈ DiGraph.nodes G));
        [apply (di_nodes _ _ _ Hinv) | ].
    + intros u v. rewrite first_weight_snoc, <- (di_weight _ _ _ Hinv).
      rewrite decide_False by tauto.
      by destruct (DiGraph.succ_weight G u v).
Qed.

(** *** The two loops *)

Lemma declared_cons_Some n nodes id :
  n_id n = Some id → declared (n :: nodes) = id :: declared nodes.
Proof. intros H. unfold declared. simpl. by rewrite H. Qed.

(** [**n] binds exactly when no key of the record names a parameter; the
    key of the [TypeError] is the first one that does. *)
Lemma kwargs_spec n :
  match kwargs n with
  | Ok attr => attr = n ∧ plain_keys n
  | Raise ex =>
      ∃ k, ex = TypeError k ∧ (k = "self" ∨ k = "node_for_adding") ∧
           ¬ plain_keys n
  end.
Proof.
  unfold kwargs, plain_keys.
  destruct (List.find _ (Dict.keys (n_attrs n))) as [k|] eqn:Hf.
  - apply find_some in Hf as [Hin Hk]. apply list_elem_of_In in Hin.
    exists k. split; [done | ].
    apply orb_true_iff in Hk as [Hk|Hk]; apply bool_decide_eq_true in Hk;
      subst k; (split; [tauto | ]); tauto.
  - split; [done | ].
    split; intros Hin%list_elem_of_In; apply (find_none _ _ Hf) in Hin;
      by rewrite bool_decide_eq_true_2 in Hin.
Qed.

Lemma kwargs_plain n : plain_keys n → kwargs n = Ok n.
Proof.
  intros Hp. pose proof (kwargs_spec n) as Hk.
  destruct (kwargs n) as [attr|ex].
  - by destruct Hk as [-> _].
  - by destruct Hk as (k & _ & _ & Hn).
Qed.

Lemma add_declared_Some Gu Gd (nm : node_map) n id :
  n_id n = Some id → plain_keys n →
  add_declared (Gu, Gd, nm) n =
  Ok (Graph.add_node Gu id n, DiGraph.add_node Gd id n, Dict.set nm id n).
Proof.
  intros H Hp. unfold add_declared. rewrite H. cbn [getitem bind].
  by rewrite (kwargs_plain n Hp).
Qed.

Lemma add_declared_None st n :
  n_id n = None → add_declared st n = Raise (KeyError "id").
Proof. intros H. destruct st as [[Gu Gd] nm]. unfold add_declared. by rewrite H. Qed.

Lemma add_declared_TypeError st n id :
  n_id n = Some id → ¬ plain_keys n →
  ∃ k, (k = "self" ∨ k = "node_for_adding") ∧
       add_declared st n = Raise (TypeError k).
Proof.
  intros H Hp. destruct st as [[Gu Gd] nm]. unfold add_declared. rewrite H.
  cbn [getitem bind]. pose proof (kwargs_spec n) as Hk.
  destruct (kwargs n) as [attr|ex].
  - by destruct Hk as [_ ?].
  - destruct Hk as (k & -> & Hk & _). by exists k.
Qed.

Lemma declared_loop nodes : ∀ Gu Gd (nm : node_map) D0,
  Graph.wf Gu → DiGraph.wf Gd →
  (∀ u v, Graph.edge_loc Gu u v = None) →
  (∀ u v, DiGraph.succ_weight Gd u v = None) →
  (∀ x, x ∈ Graph.nodes Gu ↔ x ∈ D0) →
  (∀ x, x ∈ DiGraph.nodes Gd ↔ x ∈ D0) →
  match for_each add_declared nodes (Gu, Gd, nm) with
  | Ok (Gu', Gd', _) =>
      Forall has_id nodes ∧ Forall plain_keys nodes ∧
      Graph.wf Gu' ∧ DiGraph.wf Gd' ∧
      (∀ u v, Graph.edge_loc Gu' u v = None) ∧
      (∀ u v, DiGraph.succ_weight Gd' u v = None) ∧
      (∀ x, x ∈ Graph.nodes Gu' ↔ x ∈ D0 ++ declared nodes) ∧
      (∀ x, x ∈ DiGraph.nodes Gd' ↔ x ∈ D0 ++ declared nodes)
  | Raise ex =>
      (ex = KeyError "id" ∧ ¬ Forall has_id nodes) ∨
      (∃ k, ex = TypeError k ∧ (k = "self" ∨ k = "node_for_adding") ∧
            ¬ Forall plain_keys nodes)
  end.
Proof.
  induction nodes as [|n nodes IH]; intros Gu Gd nm D0 Hwu Hwd Hlu Hld Hnu Hnd.
  - simpl. rewrite app_nil_r. auto 10.
  - cbn [for_each].
    destruct (n_id n) as [id|] eqn:Hid.
    + destruct (decide (plain_keys n)) as [Hp|Hp].
      * rewrite (add_declared_Some _ _ _ _ _ Hid Hp). cbn [bind].
        assert (IH' := IH (Graph.add_node Gu id n) (DiGraph.add_node Gd id n)
                          (Dict.set nm id n) (D0 ++ [id])).
        replace (D0 ++ declared (n :: nodes))
          with ((D0 ++ [id]) ++ declared nodes)
          by (by rewrite (declared_cons_Some _ _ _ Hid), <- app_assoc).
        assert (Hn : has_id n) by (unfold has_id; rewrite Hid; by eexists).
        assert (IH'' := IH' (GraphFacts.wf_add_node _ _ _ Hwu)
                            (DiGraphFacts.dwf_add_node _ _ _ Hwd)).
        clear IH'.
        destruct (for_each add_declared nodes _) as [[[Gu' Gd'] nm']|ex].
        -- destruct IH'' as (HF & HP & ?).
           ++ intros u v. unfold Graph.edge_loc.
              rewrite GraphFacts.neighbors_add_node by done. apply Hlu.
           ++ intros u v. rewrite DiGraphFacts.succ_weight_add_node by done.
              apply Hld.
           ++ intros x. rewrite GraphFacts.nodes_add_node, elem_of_app,
                list_elem_of_singleton, Hnu. tauto.
           ++ intros x. rewrite DiGraphFacts.dnodes_add_node, elem_of_app,
                list_elem_of_singleton, Hnd. tauto.
           ++ split; [by constructor | ]. split; [by constructor | done].
        -- destruct IH'' as [(-> & HF)|(k & -> & Hk & HF)].
           ++ intros u v. unfold Graph.edge_loc.
              rewrite GraphFacts.neighbors_add_node by done. apply Hlu.
           ++ intros u v. rewrite DiGraphFacts.succ_weight_add_node by done.
              apply Hld.
           ++ intros x. rewrite GraphFacts.nodes_add_node, elem_of_app,
                list_elem_of_singleton, Hnu. tauto.
           ++ intros x. rewrite DiGraphFacts.dnodes_add_node, elem_of_app,
                list_elem_of_singleton, Hnd. tauto.
           ++ left. split; [done | ]. intros HF'. apply HF. by inversion HF'.
           ++ right. exists k. split; [done | ]. split; [done | ].
              intros HF'. apply HF. by inversion HF'.
      * destruct (add_declared_TypeError (Gu, Gd, nm) n id Hid Hp)
          as (k & Hk & ->).
        cbn [bind]. right. exists k. split; [done | ]. split; [done | ].
        intros HF. by inversion HF.
    + rewrite (add_declared_None _ _ Hid). cbn [bind]. left.
      split; [done | ]. intros HF. inversion HF as [|? ? Hn]; subst.
      unfold has_id in Hn. rewrite Hid in Hn. by destruct Hn.
Qed.

Lemma add_input_edge_no_source st e :
  e_source e = None → add_input_edge st e = Raise (KeyError "source").
Proof. intros H. destruct st. unfold add_input_edge. by rewrite H. Qed.

Lemma add_input_edge_no_target st e src :
  e_source e = Some src → e_target e = None →
  add_input_edge st e = Raise (KeyError "target").
Proof. intros Hs H. destruct st. unfold add_input_edge. by rewrite Hs, H. Qed.

Lemma add_input_edge_step D es Gu Gd e src tgt :
  und_inv D es Gu → dir_inv D es Gd →
  e_source e = Some src → e_target e = Some tgt →
  match add_input_edge (Gu, Gd) e with
  | Ok (Gu', Gd') => und_inv D (es ++ [e]) Gu' ∧ dir_inv D (es ++ [e]) Gd'
  | Raise ex =>
      ex = OverflowError ∧ pair_weight (es ++ [e]) src tgt = Raise OverflowError
  end.
Proof.
  intros Hu Hd Hs Ht.
  pose proof (und_step D es Gu e src tgt Hu Hs Ht) as Hu1.
  pose proof (dir_step D es Gd e src tgt Hd Hs Ht) as Hd1.
  unfold add_input_edge. rewrite Hs, Ht. cbn [getitem bind].
  match goal with
  | |- context [bind ?x _] =>
      change (match x with
              | Ok G' => und_inv D (es ++ [e]) G'
              | Raise ex =>
                  ex = OverflowError ∧
                  pair_weight (es ++ [e]) src tgt = Raise OverflowError
              end) in Hu1;
      destruct x as [Gu1|ex]
  end; cbn [bind]; [ | done].
  split; [done | exact Hd1].
Qed.

Lemma und_inv_weights_add D es G : und_inv D es G → weights_add es.
Proof.
  intros Hinv u v. destruct (Graph.edge_loc G u v) as [l|] eqn:Hl.
  - destruct (ui_weight _ _ _ Hinv u v l Hl) as (w & _ & Hw). by exists w.
  - apply (ui_edge _ _ _ Hinv) in Hl. exists (Int 0). by apply pair_weight_nil.
Qed.

Lemma edge_loop D es : ∀ es0 Gu Gd,
  und_inv D es0 Gu → dir_inv D es0 Gd →
  match for_each add_input_edge es (Gu, Gd) with
  | Ok (Gu', Gd') =>
      Forall has_ends es ∧ und_inv D (es0 ++ es) Gu' ∧ dir_inv D (es0 ++ es) Gd'
  | Raise ex =>
      ((ex = KeyError "source" ∨ ex = KeyError "target") ∧
       ¬ Forall has_ends es) ∨
      (ex = OverflowError ∧ ¬ weights_add (es0 ++ es))
  end.
Proof.
  induction es as [|e es IH]; intros es0 Gu Gd Hu Hd.
  - simpl. rewrite app_nil_r. auto.
  - cbn [for_each].
    destruct (e_source e) as [src|] eqn:Hs.
    + destruct (e_target e) as [tgt|] eqn:Ht.
      * pose proof (add_input_edge_step D es0 Gu Gd e src tgt Hu Hd Hs Ht)
          as Hstep.
        destruct (add_input_edge (Gu, Gd) e) as [[Gu1 Gd1]|ex]; cbn [bind].
        -- destruct Hstep as [Hu1 Hd1].
           specialize (IH (es0 ++ [e]) Gu1 Gd1 Hu1 Hd1).
           rewrite <- app_assoc in IH. simpl in IH.
           destruct (for_each add_input_edge es _) as [[Gu' Gd']|ex].
           ++ destruct IH as (HF & ? & ?). split; [ | done].
              constructor; [ | done]. unfold has_ends. rewrite Hs, Ht.
              split; by eexists.
           ++ destruct IH as [(Hex & HF)|IH]; [left | by right].
              split; [done | ]. intros HF'. apply HF. by inversion HF'.
        -- destruct Hstep as [-> Hr]. right. split; [done | ].
           intros Ha. destruct (Ha src tgt) as [w Hw].
           rewrite (cons_middle e es0 es), app_assoc in Hw.
           rewrite (pair_weight_mono _ es _ _ _ Hr) in Hw. done.
      * rewrite (add_input_edge_no_target _ _ _ Hs Ht). cbn [bind]. left.
        split; [by right | ]. intros HF. inversion HF as [|? ? [_ Hn]]; subst.
        rewrite Ht in Hn. by destruct Hn.
    + rewrite (add_input_edge_no_source _ _ Hs). cbn [bind]. left.
      split; [by left | ]. intros HF. inversion HF as [|? ? [Hn _]]; subst.
      rewrite Hs in Hn. by destruct Hn.
Qed.

(** [build_graphs] returns exactly when every node record has an [id] and
    no key that names a parameter of [add_node], every edge record has a
    [source] and a [target], and no addition of weights overflows; the
    views it returns satisfy the two invariants for the whole edge list. *)
Lemma build_graphs_spec nodes edges :
  match build_graphs nodes edges with
  | Ok (Gu, Gd, _) =>
      Forall has_id nodes ∧ Forall plain_keys nodes ∧ Forall has_ends edges ∧
      und_inv (declared nodes) edges Gu ∧ dir_inv (declared nodes) edges Gd
  | Raise ex =>
      (ex = KeyError "id" ∧ ¬ Forall has_id nodes) ∨
      (∃ k, ex = TypeError k ∧ (k = "self" ∨ k = "node_for_adding") ∧
            ¬ Forall plain_keys nodes) ∨
      ((ex = KeyError "source" ∨ ex = KeyError "target") ∧
       ¬ Forall has_ends edges) ∨
      (ex = OverflowError ∧ ¬ weights_add edges)
  end.
Proof.
  unfold build_graphs.
  pose proof (declared_loop nodes Graph.empty DiGraph.empty [] []
                GraphFacts.wf_empty DiGraphFacts.dwf_empty) as Hn.
  destruct (for_each add_declared nodes _) as [[[Gu0 Gd0] nm]|ex]; simpl.
  - destruct Hn as (HFn & HPn & Hwu & Hwd & Hlu & Hld & Hnu & Hnd); try done.
    assert (Hu0 : und_inv (declared nodes) [] Gu0).
    { split; [done | | done | ].
      - intros x. rewrite Hnu. simpl. split; [by left | ].
        intros [?|(e & He & _)]; [done | inversion He].
      - intros u v l. by rewrite Hlu. }
    assert (Hd0 : dir_inv (declared nodes) [] Gd0).
    { split; [done | | done].
      intros x. rewrite Hnd. simpl. split; [by left | ].
      intros [?|(e & He & _)]; [done | inversion He]. }
    pose proof (edge_loop (declared nodes) edges [] Gu0 Gd0 Hu0 Hd0) as He.
    destruct (for_each add_input_edge edges _) as [[Gu Gd]|ex]; simpl.
    + simpl in He. tauto.
    + simpl in He. tauto.
  - destruct Hn as [Hn|Hn]; try done; tauto.
Qed.

Lemma for_each_app {A S} (f : S → A → result S) l1 l2 st :
  for_each f (l1 ++ l2) st = (st' <-- for_each f l1 st ;; for_each f l2 st').
Proof.
  revert st. induction l1 as [|x l1 IH]; intros st; simpl; [done | ].
  destruct (f st x); simpl; [apply IH | done].
Qed.

Lemma for_each_ext {A S} (f g : S → A → result S) l st :
  (∀ s x, x ∈ l → f s x = g s x) → for_each f l st = for_each g l st.
Proof.
  revert st. induction l as [|x l IH]; intros st Hfg; simpl; [done | ].
  rewrite (Hfg st x) by left. destruct (g st x); simpl; [ | done].
  apply IH. intros s y Hy. apply Hfg. by right.
Qed.

Lemma build_graphs_Ok nodes edges Gu Gd nm :
  build_graphs nodes edges = Ok (Gu, Gd, nm) →
  Forall has_id nodes ∧ Forall has_ends edges ∧
  und_inv (declared nodes) edges Gu ∧ dir_inv (declared nodes) edges Gd.
Proof.
  intros Hb. pose proof (build_graphs_spec nodes edges) as Hs.
  rewrite Hb in Hs. tauto.
Qed.

Lemma build_graphs_plain nodes edges built :
  build_graphs nodes edges = Ok built →
  Forall plain_keys nodes ∧ weights_add edges.
Proof.
  intros Hb. pose proof (build_graphs_spec nodes edges) as Hs.
  rewrite Hb in Hs. destruct built as [[Gu Gd] nm].
  destruct Hs as (_ & Hp & _ & Hu & _). split; [done | ].
  by eapply und_inv_weights_add.
Qed.

Lemma build_graphs_total nodes edges :
  Forall has_id nodes → Forall plain_keys nodes →
  Forall has_ends edges → weights_add edges →
  ∃ Gu Gd nm, build_graphs nodes edges = Ok (Gu, Gd, nm).
Proof.
  intros Hn Hp He Ha. pose proof (build_graphs_spec nodes edges) as Hs.
  destruct (build_graphs nodes edges) as [[[Gu Gd] nm]|ex].
  - by eexists _, _, _.
  - exfalso. destruct Hs as [[_ Hs]|[(k & _ & _ & Hs)|[[_ Hs]|[_ Hs]]]];
      by apply Hs.
Qed.

Lemma und_inv_has_edge D es G u v :
  und_inv D es G →
  Graph.has_edge G u v = true ↔ ∃ e, e ∈ es ∧ in_undirected e ∧ joins e u v.
Proof.
  intros Hinv. rewrite GraphFacts.has_edge_loc, <- not_eq_None_Some.
  rewrite (ui_edge _ _ _ Hinv).
  apply (between_nonempty (λ e, in_undirected e ∧ joins e u v)).
Qed.

Lemma und_inv_weight D es G u v :
  und_inv D es G → Graph.has_edge G u v = true →
  ∃ w, Graph.weight G u v = Ok w ∧ pair_weight es u v = Ok w.
Proof.
  intros Hinv [l Hl]%GraphFacts.has_edge_loc.
  destruct (ui_weight _ _ _ Hinv u v l Hl) as (w & Hw & Hp).
  exists w. split; [ | done].
  unfold Graph.weight. unfold Graph.edge_loc, Graph.neighbors in Hl.
  destruct (Dict.get (Graph.adj G) u) as [nbrs|]; simpl in *; [ | done].
  rewrite Hl. simpl. by rewrite Hw.
Qed.

Lemma dir_inv_has_edge D es G u v :
  dir_inv D es G →
  DiGraph.has_edge G u v = true ↔ ∃ e, e ∈ es ∧ in_directed e ∧ joins e u v.
Proof.
  intros Hinv. rewrite DiGraphFacts.has_edge_weight, <- not_eq_None_Some.
  rewrite (di_weight _ _ _ Hinv), first_weight_None.
  apply (between_nonempty (λ e, in_directed e ∧ joins e u v)).
Qed.

Lemma pair_sum_perm es es' u v :
  es' ≡ₚ es → pair_sum es' u v = pair_sum es u v.
Proof.
  intros Hp. unfold pair_sum, undirected_between.
  apply sum_Z_perm. by rewrite Hp.
Qed.

Lemma between_split (P : edge_rec → Prop) `{∀ e, Decision (P e)} es1 e es2 :
  P e → filter P (es1 ++ e :: es2) = filter P es1 ++ e :: filter P es2.
Proof. intros HP. by rewrite filter_app, filter_cons_True. Qed.

(** ** The claims about [build_graphs] *)

(** C1, as stated, fails: the node sets of the two views are not always the
    declared ids.  The edge a -> x, with x undeclared, puts x in both. *)
Lemma declared_only_nodes_counterexample :
  ¬ (∀ nodes edges Gu Gd nm,
       build_graphs nodes edges = Ok (Gu, Gd, nm) →
       ∀ x, (x ∈ Graph.nodes Gu ↔ x ∈ declared nodes) ∧
            (x ∈ DiGraph.nodes Gd ↔ x ∈ declared nodes)).
Proof.
  intros H.
  assert (Hb : ∃ Gu Gd nm,
    build_graphs [mk_node (Some "a") None None None []]
      [mk_edge (Some "a") (Some "x") None (Some "bipartite")] = Ok (Gu, Gd, nm) ∧
    "x" ∈ Graph.nodes Gu).
  { eexists _, _, _. split; [vm_compute; reflexivity | ].
    apply (bool_decide_unpack _). vm_compute. exact I. }
  destruct Hb as (Gu & Gd & nm & Hb & Hx).
  apply (H _ _ _ _ _ Hb "x") in Hx.
  revert Hx. apply (bool_decide_unpack _). vm_compute. exact I.
Qed.

(** C1, amended: every declared id is a node of both views, and the node set
    of a view is the declared ids together with the endpoints of the edge
    records that the view takes (bipartite and coedit for the undirected
    view, bipartite for the directed one): an undeclared endpoint of such an
    edge is created, an undeclared endpoint of any other edge is not. *)
Theorem build_graphs_nodes nodes edges Gu Gd nm :
  build_graphs nodes edges = Ok (Gu, Gd, nm) →
  ∀ x,
    (x ∈ declared nodes → x ∈ Graph.nodes Gu ∧ x ∈ DiGraph.nodes Gd) ∧
    (x ∈ Graph.nodes Gu ↔
     x ∈ declared nodes ∨ ∃ e, e ∈ edges ∧ in_undirected e ∧ endpoint e x) ∧
    (x ∈ DiGraph.nodes Gd ↔
     x ∈ declared nodes ∨ ∃ e, e ∈ edges ∧ in_directed e ∧ endpoint e x).
Proof.
  intros (_ & _ & Hu & Hd)%build_graphs_Ok x.
  pose proof (ui_nodes _ _ _ Hu x) as Hnu.
  pose proof (di_nodes _ _ _ Hd x) as Hnd.
  split; [ | by split]. intros Hx. split; [apply Hnu | apply Hnd]; by left.
Qed.

(** The two exceptions of [build_graphs] that are no [KeyError]: a node
    record with a key named [self], and an integer weight beyond the range
    of the floats that is added to a float. *)
Example self_key_TypeError :
  build_graphs [mk_node (Some "a") None None None [("self", "1")]] [] =
  Raise (TypeError "self").
Proof. vm_compute. reflexivity. Qed.

Example huge_weight_OverflowError :
  build_graphs []
    [ mk_edge (Some "a") (Some "b") (Some (Int (2 ^ 1024))) None;
      mk_edge (Some "a") (Some "b") (Some (Float float_0_1)) None ] =
  Raise OverflowError.
Proof. vm_compute. reflexivity. Qed.

(** C3, as stated, fails: the stored weight depends on the order of the
    edge list.  Three records between a and b that weigh 0.1, 0.2 and 0.3
    give the weight 0.6000000000000001; in the reverse order they give
    0.6. *)
Lemma weight_order_counterexample :
  ¬ (∀ nodes edges Gu Gd nm,
       build_graphs nodes edges = Ok (Gu, Gd, nm) →
       ∀ u v edges', edges' ≡ₚ edges →
         ∃ Gu' Gd' nm',
           build_graphs nodes edges' = Ok (Gu', Gd', nm') ∧
           Graph.weight Gu' u v = Graph.weight Gu u v).
Proof.
  intros H.
  assert (Hb : ∃ Gu Gd nm,
    build_graphs float_nodes float_edges = Ok (Gu, Gd, nm) ∧
    Graph.weight Gu "a" "b" =
    Ok (Float (S754_finite false 5404319552844596 (-53)))).
  { eexists _, _, _. split; vm_compute; reflexivity. }
  destruct Hb as (Gu & Gd & nm & Hb & Hw).
  destruct (H _ _ _ _ _ Hb "a" "b" (rev float_edges))
    as (Gu' & Gd' & nm' & Hb' & Hw').
  { symmetry. apply Permutation_rev. }
  rewrite Hw in Hw'. vm_compute in Hb'. injection Hb' as <- <- <-.
  vm_compute in Hw'. discriminate Hw'.
Qed.

(** C3, amended: the undirected view has an edge between u and v exactly
    when some bipartite or coedit edge record connects them; its weight,
    read from either endpoint, is what Python's [+] gives when the weights
    of those records (1 for a record without weight) are added one after
    the other in the order of the edge list; when all weights are integers
    it is their exact sum, and then any reordering of the edge list gives
    the same edges with the same weights. *)
Theorem undirected_view_weights nodes edges Gu Gd nm :
  build_graphs nodes edges = Ok (Gu, Gd, nm) →
  ∀ u v,
    (Graph.has_edge Gu u v = true ↔
     ∃ e, e ∈ edges ∧ in_undirected e ∧ joins e u v) ∧
    (Graph.has_edge Gu u v = true →
     ∃ w,
       add_all (weight_of <$> undirected_between edges u v) = Ok w ∧
       Graph.weight Gu u v = Ok w ∧
       Graph.weight Gu v u = Ok w) ∧
    (Forall int_weighted edges →
     (Graph.has_edge Gu u v = true →
      Graph.weight Gu u v = Ok (Int (pair_sum edges u v)) ∧
      Graph.weight Gu v u = Ok (Int (pair_sum edges u v))) ∧
     (∀ edges', edges' ≡ₚ edges →
        ∃ Gu' Gd' nm',
          build_graphs nodes edges' = Ok (Gu', Gd', nm') ∧
          Graph.has_edge Gu' u v = Graph.has_edge Gu u v ∧
          (Graph.has_edge Gu u v = true →
           Graph.weight Gu' u v = Graph.weight Gu u v))).
Proof.
  intros Hb u v.
  destruct (build_graphs_plain _ _ _ Hb) as [Hp _].
  apply build_graphs_Ok in Hb as (Hn & He & Hu & Hd).
  assert (Hsym : Graph.has_edge Gu u v = true → Graph.has_edge Gu v u = true).
  { intros Hh. apply (und_inv_has_edge _ _ _ _ _ Hu).
    apply (und_inv_has_edge _ _ _ _ _ Hu) in Hh as (e & ? & ? & ?).
    exists e. by rewrite joins_sym. }
  assert (Hw : Graph.has_edge Gu u v = true →
    ∃ w, pair_weight edges u v = Ok w ∧
         Graph.weight Gu u v = Ok w ∧ Graph.weight Gu v u = Ok w).
  { intros Hh.
    destruct (und_inv_weight _ _ _ u v Hu Hh) as (w & Hw & Hpw).
    destruct (und_inv_weight _ _ _ v u Hu (Hsym Hh)) as (w' & Hw' & Hpw').
    rewrite pair_weight_sym, Hpw in Hpw'. injection Hpw' as <-.
    by exists w. }
  split; [by eapply und_inv_has_edge | ]. split; [exact Hw | ].
  intros Hint. split.
  - intros Hh. destruct (Hw Hh) as (w & Hpw & -> & ->).
    rewrite (pair_weight_int _ _ _ Hint) in Hpw. by injection Hpw as <-.
  - intros edges' Hperm.
    assert (He' : Forall has_ends edges') by (by rewrite Hperm).
    assert (Hint' : Forall int_weighted edges') by (by rewrite Hperm).
    destruct (build_graphs_total nodes edges' Hn Hp He'
                (weights_add_int _ Hint')) as (Gu' & Gd' & nm' & Hb').
    exists Gu', Gd', nm'. split; [done | ].
    apply build_graphs_Ok in Hb' as (_ & _ & Hu' & _).
    assert (Hiff : Graph.has_edge Gu' u v = true ↔ Graph.has_edge Gu u v = true).
    { rewrite (und_inv_has_edge _ _ _ _ _ Hu), (und_inv_has_edge _ _ _ _ _ Hu').
      split; intros (e & Hin & ?); exists e; (split; [ | done]).
      - by rewrite <- Hperm.
      - by rewrite Hperm. }
    split.
    + destruct (Graph.has_edge Gu' u v), (Graph.has_edge Gu u v); try done.
      * symmetry. by apply Hiff.
      * by apply Hiff.
    + intros Hh.
      destruct (und_inv_weight _ _ _ _ _ Hu Hh) as (w & -> & Hpw).
      destruct (und_inv_weight _ _ _ u v Hu') as (w' & -> & Hpw');
        [by apply Hiff | ].
      rewrite (pair_weight_int _ _ _ Hint) in Hpw.
      rewrite (pair_weight_int _ _ _ Hint'), (pair_sum_perm _ _ _ _ Hperm) in Hpw'.
      congruence.
Qed.

(** C4: the directed view has the edge (u, v) exactly when some bipartite
    edge record connects u and v in either direction, so never for a pair
    that only coedit or unknown-view records connect; the weight of the edge
    is the weight of the FIRST such record, whatever comes later. *)
Theorem directed_view_edges nodes edges Gu Gd nm :
  build_graphs nodes edges = Ok (Gu, Gd, nm) →
  ∀ u v,
    (DiGraph.has_edge Gd u v = true ↔
     ∃ e, e ∈ edges ∧ in_directed e ∧ joins e u v) ∧
    ((∀ e, e ∈ edges → joins e u v → view_of e ≠ BIPARTITE) →
     DiGraph.has_edge Gd u v = false) ∧
    (DiGraph.has_edge Gd u v = true →
     ∃ e later,
       head (directed_between edges u v) = Some e ∧
       directed_between edges u v = e :: later ∧
       DiGraph.weight Gd u v = Ok (weight_of e) ∧
       DiGraph.weight Gd v u = Ok (weight_of e)).
Proof.
  intros (Hn & He & Hu & Hd)%build_graphs_Ok u v.
  pose proof (dir_inv_has_edge _ _ _ u v Hd) as Hiff.
  split; [done | ]. split.
  - intros Hno. apply not_true_is_false. intros (e & Hin & Hq & Hj)%Hiff.
    by apply (Hno e Hin Hj).
  - intros [w Hw]%DiGraphFacts.has_edge_weight.
    pose proof Hw as Hw'.
    rewrite (di_weight _ _ _ Hd), first_weight_sym,
      <- (di_weight _ _ _ Hd) in Hw'.
    rewrite (di_weight _ _ _ Hd) in Hw. unfold first_weight in Hw.
    destruct (directed_between edges u v) as [|e later] eqn:Hb; [done | ].
    injection Hw as <-. exists e, later. split; [done | ]. split; [done | ].
    split; apply DiGraphFacts.weight_succ_weight; [ | done].
    rewrite (di_weight _ _ _ Hd). unfold first_weight. by rewrite Hb.
Qed.

(** C10: an edge record without a view field is handled as the same record
    with the view "bipartite": the builder returns the same graphs, the
    undirected view has the edge, its weight is what adding the weights of
    the qualifying records before it, its own weight and those of the
    qualifying records after it gives (their exact sum when the weights are
    integers), and the directed view has the edge in both directions. *)
Theorem missing_view_is_bipartite nodes es1 e es2 :
  e_view e = None →
  build_graphs nodes (es1 ++ e :: es2) =
  build_graphs nodes (es1 ++ with_view e BIPARTITE :: es2) ∧
  ∀ Gu Gd nm src tgt,
    build_graphs nodes (es1 ++ e :: es2) = Ok (Gu, Gd, nm) →
    e_source e = Some src → e_target e = Some tgt →
    Graph.has_edge Gu src tgt = true ∧
    Graph.weight Gu src tgt =
      add_all ((weight_of <$> undirected_between es1 src tgt) ++
               weight_of e ::
               (weight_of <$> undirected_between es2 src tgt)) ∧
    (∃ w, Graph.weight Gu src tgt = Ok w) ∧
    (Forall int_weighted (es1 ++ e :: es2) →
     Graph.weight Gu src tgt =
       Ok (Int (pair_sum es1 src tgt + int_value (weight_of e)
                + pair_sum es2 src tgt))) ∧
    DiGraph.has_edge Gd src tgt = true ∧
    DiGraph.has_edge Gd tgt src = true.
Proof.
  intros Hv.
  assert (Hq : in_undirected e ∧ in_directed e).
  { unfold in_undirected, in_directed, view_of. rewrite Hv. simpl. tauto. }
  destruct Hq as [Hqu Hqd]. split.
  - unfold build_graphs.
    destruct (for_each add_declared nodes _) as [[[Gu0 Gd0] nm0]|ex]; simpl;
      [ | done].
    rewrite !for_each_app.
    destruct (for_each add_input_edge es1 (Gu0, Gd0)) as [st|ex]; simpl;
      [ | done].
    replace (add_input_edge st (with_view e BIPARTITE))
      with (add_input_edge st e); [done | ].
    destruct st as [Gu1 Gd1]. unfold add_input_edge, with_view. simpl.
    by rewrite Hv.
  - intros Gu Gd nm src tgt (_ & _ & Hu & Hd)%build_graphs_Ok Hs Ht.
    assert (Hj : joins e src tgt) by (left; done).
    assert (Hin : e ∈ es1 ++ e :: es2).
    { rewrite elem_of_app, elem_of_cons. tauto. }
    assert (Hh : Graph.has_edge Gu src tgt = true).
    { apply (und_inv_has_edge _ _ _ _ _ Hu). by exists e. }
    destruct (und_inv_weight _ _ _ _ _ Hu Hh) as (w & Hw & Hpw).
    split; [done | ]. split; [ | split; [by exists w | split]].
    + rewrite Hw, <- Hpw. unfold pair_weight, undirected_between.
      by rewrite between_split, fmap_app, fmap_cons.
    + intros Hint. rewrite Hw, <- Hpw, (pair_weight_int _ _ _ Hint).
      do 2 f_equal. unfold pair_sum, undirected_between.
      rewrite between_split by done.
      rewrite fmap_app, sum_Z_app, fmap_cons, sum_Z_cons. lia.
    + split; apply (dir_inv_has_edge _ _ _ _ _ Hd); exists e;
        [done | by rewrite joins_sym].
Qed.

(** *** The theorems at the sample request *)

Lemma build_graphs_nodes_witness :
  ∃ Gu Gd nm,
    build_graphs sample_nodes sample_edges = Ok (Gu, Gd, nm) ∧
    ∀ x,
      (x ∈ declared sample_nodes → x ∈ Graph.nodes Gu ∧ x ∈ DiGraph.nodes Gd) ∧
      (x ∈ Graph.nodes Gu ↔
       x ∈ declared sample_nodes ∨
       ∃ e, e ∈ sample_edges ∧ in_undirected e ∧ endpoint e x) ∧
      (x ∈ DiGraph.nodes Gd ↔
       x ∈ declared sample_nodes ∨
       ∃ e, e ∈ sample_edges ∧ in_directed e ∧ endpoint e x).
Proof.
  eexists _, _, _. split; [vm_compute; reflexivity | ].
  eapply (build_graphs_nodes sample_nodes sample_edges).
  vm_compute. reflexivity.
Defined.

Lemma undirected_view_weights_witness :
  ∃ Gu Gd nm,
    build_graphs sample_nodes sample_edges = Ok (Gu, Gd, nm) ∧
    ∀ u v,
      (Graph.has_edge Gu u v = true ↔
       ∃ e, e ∈ sample_edges ∧ in_undirected e ∧ joins e u v) ∧
      (Graph.has_edge Gu u v = true →
       ∃ w,
         add_all (weight_of <$> undirected_between sample_edges u v) = Ok w ∧
         Graph.weight Gu u v = Ok w ∧
         Graph.weight Gu v u = Ok w) ∧
      (Forall int_weighted sample_edges →
       (Graph.has_edge Gu u v = true →
        Graph.weight Gu u v = Ok (Int (pair_sum sample_edges u v)) ∧
        Graph.weight Gu v u = Ok (Int (pair_sum sample_edges u v))) ∧
       (∀ edges', edges' ≡ₚ sample_edges →
          ∃ Gu' Gd' nm',
            build_graphs sample_nodes edges' = Ok (Gu', Gd', nm') ∧
            Graph.has_edge Gu' u v = Graph.has_edge Gu u v ∧
            (Graph.has_edge Gu u v = true →
             Graph.weight Gu' u v = Graph.weight Gu u v))).
Proof.
  eexists _, _, _. split; [vm_compute; reflexivity | ].
  eapply (undirected_view_weights sample_nodes sample_edges).
  vm_compute. reflexivity.
Defined.

Lemma directed_view_edges_witness :
  ∃ Gu Gd nm,
    build_graphs sample_nodes sample_edges = Ok (Gu, Gd, nm) ∧
    ∀ u v,
      (DiGraph.has_edge Gd u v = true ↔
       ∃ e, e ∈ sample_edges ∧ in_directed e ∧ joins e u v) ∧
      ((∀ e, e ∈ sample_edges → joins e u v → view_of e ≠ BIPARTITE) →
       DiGraph.has_edge Gd u v = false) ∧
      (DiGraph.has_edge Gd u v = true →
       ∃ e later,
         head (directed_between sample_edges u v) = Some e ∧
         directed_between sample_edges u v = e :: later ∧
         DiGraph.weight Gd u v = Ok (weight_of e) ∧
         DiGraph.weight Gd v u = Ok (weight_of e)).
Proof.
  eexists _, _, _. split; [vm_compute; reflexivity | ].
  eapply (directed_view_edges sample_nodes sample_edges).
  vm_compute. reflexivity.
Defined.

Lemma missing_view_is_bipartite_witness :
  e_view (mk_edge (Some "e2") (Some "a1") None None) = None ∧
  build_graphs sample_nodes sample_edges =
  build_graphs sample_nodes
    (take 1 sample_edges ++
     with_view (mk_edge (Some "e2") (Some "a1") None None) BIPARTITE ::
     drop 2 sample_edges) ∧
  ∀ Gu Gd nm src tgt,
    build_graphs sample_nodes sample_edges = Ok (Gu, Gd, nm) →
    e_source (mk_edge (Some "e2") (Some "a1") None None) = Some src →
    e_target (mk_edge (Some "e2") (Some "a1") None None) = Some tgt →
    Graph.has_edge Gu src tgt = true ∧
    Graph.weight Gu src tgt =
      add_all
        ((weight_of <$> undirected_between (take 1 sample_edges) src tgt) ++
         weight_of (mk_edge (Some "e2") (Some "a1") None None) ::
         (weight_of <$> undirected_between (drop 2 sample_edges) src tgt)) ∧
    (∃ w, Graph.weight Gu src tgt = Ok w) ∧
    (Forall int_weighted
       (take 1 sample_edges ++
        mk_edge (Some "e2") (Some "a1") None None :: drop 2 sample_edges) →
     Graph.weight Gu src tgt =
       Ok (Int (pair_sum (take 1 sample_edges) src tgt
                + int_value (weight_of (mk_edge (Some "e2") (Some "a1") None None))
                + pair_sum (drop 2 sample_edges) src tgt))) ∧
    DiGraph.has_edge Gd src tgt = true ∧
    DiGraph.has_edge Gd tgt src = true.
Proof.
  split; [reflexivity | ].
  apply (missing_view_is_bipartite sample_nodes (take 1 sample_edges)
           (mk_edge (Some "e2") (Some "a1") None None) (drop 2 sample_edges)).
  reflexivity.
Defined.

(** ** The claims about the handler and the anomaly detector *)

Section handler_facts.
Context `{Libraries}.

(** C2: with fewer than 3 node records the handler returns the fixed
    zeroed response, whatever the edge list holds. *)
Theorem analyze_short_circuit (data : payload) :
  len (default [] (p_nodes data)) < 3 →
  analyze data =
  Results
    {| r_communities := [];
       r_pagerank := [];
       r_hubs := [];
       r_anomalies := [];
       r_evaluation :=
         {| ev_community :=
              {| modularity := 0; numCommunities := 0; coverage := 0;
                 largestSize := 0; medianSize := 0 |};
            ev_pagerank :=
              {| gini := 0; entropy := 0; top10pct := 0; nodeCount := 0 |};
            ev_hubs :=
              {| hubCount := 0; maxDegree := 0; meanDegree := 0;
                 hubConcentration := 0 |};
            ev_anomaly :=
              {| totalCount := 0; prolificEditors := 0; coordinatedEdits := 0;
                 avgScore := 0 |} |} |}.
Proof.
  intros Hlt. unfold analyze, analyze_body.
  by rewrite (proj2 (Z.ltb_lt _ _) Hlt).
Qed.

(** C8: on a view with fewer than 5 nodes the anomaly detector returns the
    empty mapping, whatever the edges, the node index and the scores. *)
Theorem detect_anomalies_small (G : Graph.t) (node_map : node_map)
    (pagerank : list (string * Q)) :
  Graph.number_of_nodes G < 5 →
  detect_anomalies G node_map pagerank = Ok [].
Proof.
  intros Hlt. unfold detect_anomalies.
  by rewrite (proj2 (Z.ltb_lt _ _) Hlt).
Qed.

(** C9: with at least 3 node records, a node record without [id] or an edge
    record without [source] or [target] makes the handler return the error
    object, with the text of the exception as message and status 500, and
    never a results object.  The exception is the [KeyError] of the missing
    field, unless the builder stopped earlier on a node record whose keys
    do not bind ([TypeError]) or on weights that do not add
    ([OverflowError]). *)
Theorem analyze_malformed (data : payload) :
  3 ≤ len (default [] (p_nodes data)) →
  Exists (λ n, n_id n = None) (default [] (p_nodes data)) ∨
  Exists (λ e, e_source e = None ∨ e_target e = None)
    (default [] (p_edges data)) →
  (∃ ex,
     analyze data = ErrorResponse (str_exn ex) 500 ∧
     (ex = KeyError "id" ∨ ex = KeyError "source" ∨ ex = KeyError "target" ∨
      (∃ k, ex = TypeError k) ∨ ex = OverflowError)) ∧
  (Forall plain_keys (default [] (p_nodes data)) →
   weights_add (default [] (p_edges data)) →
   ∃ key,
     (key = "id" ∨ key = "source" ∨ key = "target") ∧
     analyze data = ErrorResponse (str_exn (KeyError key)) 500).
Proof.
  intros Hge Hbad. unfold analyze, analyze_body.
  rewrite (proj2 (Z.ltb_ge _ _) Hge).
  pose proof (build_graphs_spec (default [] (p_nodes data))
                (default [] (p_edges data))) as Hs.
  destruct (build_graphs _ _) as [[[Gu Gd] nm]|ex].
  - exfalso. destruct Hs as (Hn & _ & He & _).
    rewrite Forall_forall in Hn. rewrite Forall_forall in He.
    destruct Hbad as [(n & Hin & Hid)%Exists_exists|(e & Hin & He')%Exists_exists].
    + destruct (Hn n Hin) as [? Hsome]. congruence.
    + destruct (He e Hin) as [[? Hs'] [? Ht']]. destruct He'; congruence.
  - cbn [bind]. split.
    + exists ex. split; [done | ].
      destruct Hs as [[-> _]|[(k & -> & _)|[[[-> | ->] _]|[-> _]]]]; eauto 10.
    + intros Hp Ha.
      destruct Hs as [[-> _]|[(k & _ & _ & Hk)|[[[-> | ->] _]|[_ Hw]]]];
        try done; eexists; (split; [ | done]); tauto.
Qed.

End handler_facts.

Lemma analyze_short_circuit_witness :
  len (default [] (p_nodes small_payload)) < 3 ∧
  @analyze sample_libraries small_payload = Results zeroed.
Proof.
  split; [vm_compute; reflexivity | ].
  apply (@analyze_short_circuit sample_libraries small_payload).
  vm_compute. reflexivity.
Defined.

Lemma detect_anomalies_small_witness :
  Graph.number_of_nodes (Graph.add_edge Graph.empty "a" "b" (Int 1)) < 5 ∧
  @detect_anomalies sample_libraries
    (Graph.add_edge Graph.empty "a" "b" (Int 1)) [] [("a", 1%Q)] = Ok [].
Proof.
  split; [vm_compute; reflexivity | ].
  apply (@detect_anomalies_small sample_libraries). vm_compute. reflexivity.
Defined.

Lemma analyze_malformed_witness :
  3 ≤ len (default [] (p_nodes malformed_payload)) ∧
  (∃ ex,
     @analyze sample_libraries malformed_payload =
     ErrorResponse (str_exn ex) 500 ∧
     (ex = KeyError "id" ∨ ex = KeyError "source" ∨ ex = KeyError "target" ∨
      (∃ k, ex = TypeError k) ∨ ex = OverflowError)) ∧
  (Forall plain_keys (default [] (p_nodes malformed_payload)) →
   weights_add (default [] (p_edges malformed_payload)) →
   ∃ key,
     (key = "id" ∨ key = "source" ∨ key = "target") ∧
     @analyze sample_libraries malformed_payload =
     ErrorResponse (str_exn (KeyError key)) 500).
Proof.
  split; [vm_compute; discriminate | ].
  apply (@analyze_malformed sample_libraries malformed_payload).
  - vm_compute. discriminate.
  - left. vm_compute. do 2 apply Exists_cons_tl. by apply Exists_cons_hd.
Defined.

(** ** Dictionaries built in a loop *)

Section assign.
Context {K V : Type} `{EqDecision K}.
Implicit Types (kvs acc : list (K * V)) (k : K) (v : V).

Lemma assign_all_keys kvs : ∀ acc k,
  k ∈ Dict.keys (assign_all kvs acc) ↔ k ∈ Dict.keys acc ∨ k ∈ fst <$> kvs.
Proof.
  unfold assign_all.
  induction kvs as [|[k0 v0] kvs IH]; intros acc k; csimpl.
  - rewrite elem_of_nil. tauto.
  - rewrite IH, DictFacts.keys_set, elem_of_cons. tauto.
Qed.

Lemma assign_all_get kvs : ∀ acc k v,
  Dict.get (assign_all kvs acc) k = Some v →
  Dict.get acc k = Some v ∨ (k, v) ∈ kvs.
Proof.
  unfold assign_all.
  induction kvs as [|[k0 v0] kvs IH]; intros acc k v; csimpl.
  - by left.
  - intros [Hg|Hin]%IH; [ | right; by right].
    rewrite DictFacts.get_set in Hg.
    destruct (decide (k0 = k)) as [->|]; [ | by left].
    injection Hg as ->. right. left.
Qed.

Lemma assign_all_NoDup kvs : ∀ acc,
  NoDup (Dict.keys acc) → NoDup (Dict.keys (assign_all kvs acc)).
Proof.
  unfold assign_all.
  induction kvs as [|[k0 v0] kvs IH]; intros acc Hnd; csimpl; [done | ].
  apply IH. by apply DictFacts.NoDup_keys_set.
Qed.

(** Loading a list of pairs with distinct keys gives the list back. *)
Lemma assign_all_fresh kvs : ∀ acc,
  NoDup (Dict.keys acc ++ (fst <$> kvs)) → assign_all kvs acc = acc ++ kvs.
Proof.
  unfold assign_all.
  induction kvs as [|[k0 v0] kvs IH]; intros acc Hnd; csimpl.
  - by rewrite app_nil_r.
  - csimpl in Hnd.
    assert (Hset : Dict.set acc k0 v0 = acc ++ [(k0, v0)]).
    { apply NoDup_app in Hnd as (_ & Hdisj & _). clear IH.
      assert (Hk : k0 ∉ Dict.keys acc).
      { intros Hin. apply (Hdisj k0 Hin). left. }
      clear Hdisj. induction acc as [|[k1 v1] acc IHa]; csimpl; [done | ].
      unfold Dict.keys in Hk. csimpl in Hk.
      rewrite not_elem_of_cons in Hk. destruct Hk as [Hne Hk].
      rewrite decide_False by done. f_equal. by apply IHa. }
    rewrite Hset, IH.
    + by rewrite <- app_assoc.
    + unfold Dict.keys. rewrite fmap_app. csimpl.
      rewrite <- app_assoc. exact Hnd.
Qed.

End assign.

Lemma dict_of_assign {V} (kvs : list (string * V)) :
  dict_of kvs = assign_all kvs [].
Proof. done. Qed.

Lemma dict_of_keys {V} (kvs : list (string * V)) k :
  k ∈ Dict.keys (dict_of kvs) ↔ k ∈ fst <$> kvs.
Proof.
  rewrite dict_of_assign, assign_all_keys. unfold Dict.keys. csimpl.
  rewrite elem_of_nil. tauto.
Qed.

Lemma dict_of_get {V} (kvs : list (string * V)) k v :
  Dict.get (dict_of kvs) k = Some v → (k, v) ∈ kvs.
Proof.
  rewrite dict_of_assign. intros [Hg|Hin]%assign_all_get; [done | done].
Qed.

Lemma dict_of_NoDup {V} (kvs : list (string * V)) :
  NoDup (Dict.keys (dict_of kvs)).
Proof. rewrite dict_of_assign. apply assign_all_NoDup. constructor. Qed.

Lemma dict_of_fresh {V} (kvs : list (string * V)) :
  NoDup (fst <$> kvs) → dict_of kvs = kvs.
Proof. intros Hnd. rewrite dict_of_assign. by rewrite assign_all_fresh. Qed.

(** A comprehension [{n: f(n) for n in l}]. *)
Lemma dict_of_fmap_keys {V} (f : string → V) (l : list string) k :
  k ∈ Dict.keys (dict_of ((λ n, (n, f n)) <$> l)) ↔ k ∈ l.
Proof.
  rewrite dict_of_keys, <- list_fmap_compose.
  replace (fst ∘ (λ n, (n, f n))) with (@id string) by done.
  by rewrite list_fmap_id.
Qed.

Lemma dict_of_fmap_get {V} (f : string → V) (l : list string) k :
  k ∈ l → Dict.get (dict_of ((λ n, (n, f n)) <$> l)) k = Some (f k).
Proof.
  intros Hk. apply (dict_of_fmap_keys f) in Hk.
  apply DictFacts.get_keys in Hk as [v Hv]. rewrite Hv.
  apply dict_of_get in Hv. apply list_elem_of_fmap in Hv as (n & [= -> ->] & _).
  done.
Qed.

Lemma dict_of_fmap_fresh {V} (f : string → V) (l : list string) :
  NoDup l → dict_of ((λ n, (n, f n)) <$> l) = (λ n, (n, f n)) <$> l.
Proof.
  intros Hnd. apply dict_of_fresh. rewrite <- list_fmap_compose.
  replace (fst ∘ (λ n, (n, f n))) with (@id string) by done.
  by rewrite list_fmap_id.
Qed.

(** ** [detect_communities] *)

Lemma communities_loop (L : list (Z * list string)) : ∀ acc,
  fold_left
    (λ communities '(comm_id, comm_nodes),
       fold_left (λ communities node, Dict.set communities node comm_id)
         comm_nodes communities) L acc =
  assign_all (L ≫= (λ ic, (λ n, (n, fst ic)) <$> snd ic)) acc.
Proof.
  induction L as [|[i ns] L IH]; intros acc; [done | ].
  rewrite bind_cons. unfold assign_all. rewrite fold_left_app.
  fold (assign_all (L ≫= (λ ic, (λ n, (n, fst ic)) <$> snd ic))).
  cbn [fold_left]. rewrite IH. f_equal. simpl.
  generalize acc. clear. induction ns as [|n ns IHn]; intros acc; [done | ].
  csimpl. apply IHn.
Qed.

Lemma elem_of_community_assignments cl n i :
  (n, i) ∈ community_assignments cl ↔
  ∃ c, 0 ≤ i < len cl ∧ cl !! Z.to_nat i = Some c ∧ n ∈ c.
Proof.
  unfold community_assignments, enumerate. rewrite list_elem_of_bind. split.
  - intros ([j c] & Hin & (k & c' & [= -> ->] & Hl)%elem_of_lookup_imap).
    simpl in Hin. apply list_elem_of_fmap in Hin as (n' & [= -> ->] & Hn).
    exists c'. rewrite Nat2Z.id. split; [ | done].
    apply lookup_lt_Some in Hl. unfold len. lia.
  - intros (c & [Hi _] & Hl & Hn). exists (i, c). split.
    + simpl. apply list_elem_of_fmap. by exists n.
    + apply elem_of_lookup_imap. exists (Z.to_nat i), c.
      rewrite Z2Nat.id by done. done.
Qed.

Lemma fill_get (nodes : list string) (next : Z) : ∀ acc k,
  Dict.get
    (fold_left
       (λ communities n,
          if Dict.mem communities n then communities
          else Dict.set communities n next) nodes acc) k =
  match Dict.get acc k with
  | Some v => Some v
  | None => if decide (k ∈ nodes) then Some next else None
  end.
Proof.
  induction nodes as [|n nodes IH]; intros acc k; cbn [fold_left].
  - rewrite decide_False by apply not_elem_of_nil. by destruct (Dict.get acc k).
  - rewrite IH. unfold Dict.mem. destruct (Dict.get acc n) as [vn|] eqn:Hn.
    + destruct (Dict.get acc k) as [vk|] eqn:Hk; [done | ].
      destruct (decide (k ∈ nodes)) as [Hin|Hin].
      * rewrite decide_True; [done | by right].
      * destruct (decide (k ∈ n :: nodes)) as [Hin'|]; [ | done].
        apply elem_of_cons in Hin' as [->|]; [congruence | done].
    + rewrite DictFacts.get_set. destruct (decide (n = k)) as [->|Hne].
      * rewrite Hn. rewrite decide_True; [done | left].
      * destruct (Dict.get acc k); [done | ].
        destruct (decide (k ∈ nodes)) as [Hin|Hin].
        -- rewrite decide_True; [done | by right].
        -- rewrite decide_False; [done | ].
           rewrite elem_of_cons. intuition congruence.
Qed.

Lemma fill_NoDup (nodes : list string) (next : Z) : ∀ acc,
  NoDup (Dict.keys acc) →
  NoDup (Dict.keys
    (fold_left
       (λ communities n,
          if Dict.mem communities n then communities
          else Dict.set communities n next) nodes acc)).
Proof.
  induction nodes as [|n nodes IH]; intros acc Hnd; cbn [fold_left]; [done | ].
  apply IH. destruct (Dict.mem acc n); [done | ].
  by apply DictFacts.NoDup_keys_set.
Qed.

Lemma nodes_subgraph G keep n :
  n ∈ Graph.nodes (Graph.subgraph G keep) ↔ n ∈ Graph.nodes G ∧ n ∈ keep.
Proof.
  unfold Graph.nodes, Graph.subgraph, Dict.keys. simpl.
  rewrite !list_elem_of_fmap. split.
  - intros ([k a] & -> & Hin). apply list_elem_of_In, filter_In in Hin as [Hin Hk].
    simpl in *. apply bool_decide_eq_true in Hk. split; [ | done].
    exists (k, a). split; [done | by apply list_elem_of_In].
  - intros [([k a] & -> & Hin) Hk]. exists (k, a). split; [done | ].
    apply list_elem_of_In, filter_In. split; [by apply list_elem_of_In | ].
    by apply bool_decide_eq_true.
Qed.

Lemma keys_enumerate {A} (l : list A) :
  fst <$> ((λ '(i, n), (n, i)) <$> enumerate l) = l.
Proof.
  unfold enumerate. apply list_eq. intros i.
  rewrite !list_lookup_fmap, list_lookup_imap. by destruct (l !! i).
Qed.

Section community_facts.
Context `{Libraries}.

(** C5: the community mapping has every node of the view as a key, once,
    and no other key.  With fewer than 2 nodes, or fewer than 2 nodes of
    positive degree, every label is 0.  When the detection runs and returns
    [cl], every node of degree 0 gets the label [len cl], and every node of
    a detected community gets the index of a community that holds it, which
    is below [len cl].  Louvain is assumed to return nodes of its argument
    graph only. *)
Theorem detect_communities_labels (G : Graph.t) :
  let connected_nodes := filter (λ n, 0 < Graph.degree G n) (Graph.nodes G) in
  (∀ cl, louvain_communities (Graph.subgraph G connected_nodes) = Some cl →
         ∀ c n, c ∈ cl → n ∈ c →
                n ∈ Graph.nodes (Graph.subgraph G connected_nodes)) →
  NoDup (Dict.keys (detect_communities G)) ∧
  (∀ n, n ∈ Dict.keys (detect_communities G) ↔ n ∈ Graph.nodes G) ∧
  (Graph.number_of_nodes G < 2 ∨ len connected_nodes < 2 →
   ∀ n, n ∈ Graph.nodes G → Dict.get (detect_communities G) n = Some 0) ∧
  (2 ≤ Graph.number_of_nodes G → 2 ≤ len connected_nodes →
   ∀ cl, louvain_communities (Graph.subgraph G connected_nodes) = Some cl →
     (∀ n, n ∈ Graph.nodes G → ¬ 0 < Graph.degree G n →
           Dict.get (detect_communities G) n = Some (len cl)) ∧
     (∀ c n, c ∈ cl → n ∈ c →
        ∃ i c', Dict.get (detect_communities G) n = Some i ∧
                0 ≤ i < len cl ∧ cl !! Z.to_nat i = Some c' ∧ n ∈ c')).
Proof.
  intros connected_nodes Hlib. unfold detect_communities.
  fold connected_nodes.
  destruct (Graph.number_of_nodes G <? 2) eqn:Hn2.
  { apply Z.ltb_lt in Hn2. split; [apply dict_of_NoDup | ].
    split; [intros n; apply (dict_of_fmap_keys (λ _, 0)) | ].
    split; [ | lia]. intros _ n Hn. by apply (dict_of_fmap_get (λ _, 0)). }
  apply Z.ltb_ge in Hn2.
  destruct (len connected_nodes <? 2) eqn:Hc2.
  { apply Z.ltb_lt in Hc2. split; [apply dict_of_NoDup | ].
    split; [intros n; apply (dict_of_fmap_keys (λ _, 0)) | ].
    split; [ | lia]. intros _ n Hn. by apply (dict_of_fmap_get (λ _, 0)). }
  apply Z.ltb_ge in Hc2.
  destruct (louvain_communities (Graph.subgraph G connected_nodes))
    as [cl|] eqn:Hl.
  - rewrite communities_loop. fold (community_assignments cl).
    set (communities := assign_all (community_assignments cl) []).
    assert (Hcomm : ∀ n i, Dict.get communities n = Some i →
      ∃ c, 0 ≤ i < len cl ∧ cl !! Z.to_nat i = Some c ∧ n ∈ c).
    { intros n i [Hg|Hin]%assign_all_get; [done | ].
      by apply elem_of_community_assignments. }
    assert (Hin : ∀ c n, c ∈ cl → n ∈ c → is_Some (Dict.get communities n)).
    { intros c n [j Hj]%list_elem_of_lookup Hn. apply DictFacts.get_keys.
      apply assign_all_keys. right. apply list_elem_of_fmap.
      exists (n, Z.of_nat j). split; [done | ].
      apply elem_of_community_assignments. exists c. rewrite Nat2Z.id.
      split; [ | done]. apply lookup_lt_Some in Hj. unfold len. lia. }
    split; [apply fill_NoDup, assign_all_NoDup; constructor | ].
    split; [ | split; [lia | ]].
    + intros n. rewrite <- DictFacts.get_keys, fill_get.
      destruct (Dict.get communities n) as [i|] eqn:Hg.
      * split; [intros _ | by eexists].
        destruct (Hcomm n i Hg) as (c & _ & Hc & Hnc).
        apply list_elem_of_lookup_2 in Hc.
        by apply (nodes_subgraph G connected_nodes), (Hlib cl eq_refl c).
      * destruct (decide (n ∈ Graph.nodes G)); split; try done;
          try (by eexists); by intros [].
    + intros _ _ cl' [= <-]. split.
      * intros n Hn Hdeg. rewrite fill_get.
        destruct (Dict.get communities n) as [i|] eqn:Hg.
        -- exfalso. destruct (Hcomm n i Hg) as (c & _ & Hc & Hnc).
           apply list_elem_of_lookup_2 in Hc.
           apply (Hlib cl eq_refl c n Hc), nodes_subgraph in Hnc as [_ Hnc].
           unfold connected_nodes in Hnc.
           apply list_elem_of_filter in Hnc as [? _]. done.
        -- by rewrite decide_True.
      * intros c n Hc Hn. destruct (Hin c n Hc Hn) as [i Hi].
        destruct (Hcomm n i Hi) as (c' & ? & ? & ?).
        exists i, c'. rewrite fill_get, Hi. done.
  - split; [apply dict_of_NoDup | ]. split; [ | split; [lia | done]].
    intros n. by rewrite dict_of_keys, keys_enumerate.
Qed.

End community_facts.

(** ** [compute_pagerank] *)

Lemma py_max_ge (l : list Q) : ∀ x,
  (x <= py_max x l)%Q ∧ ∀ y, y ∈ l → (y <= py_max x l)%Q.
Proof.
  unfold py_max. induction l as [|z l IH]; intros x; cbn [fold_left].
  - split; [apply Qle_refl | intros y Hy; inversion Hy].
  - destruct (Qlt_le_dec x z) as [Hlt|Hle].
    + destruct (IH z) as [Hz Hl]. split.
      * eapply Qle_trans; [apply Qlt_le_weak, Hlt | exact Hz].
      * intros y [->|Hy]%elem_of_cons; [exact Hz | by apply Hl].
    + destruct (IH x) as [Hx Hl]. split; [exact Hx | ].
      intros y [->|Hy]%elem_of_cons; [ | by apply Hl].
      eapply Qle_trans; [exact Hle | exact Hx].
Qed.

Lemma py_max_in (l : list Q) : ∀ x, py_max x l ∈ x :: l.
Proof.
  unfold py_max. induction l as [|z l IH]; intros x; cbn [fold_left].
  - left.
  - destruct (Qlt_le_dec x z).
    + right. apply IH.
    + specialize (IH x). apply elem_of_cons in IH as [->|Hin]; [left | ].
      right. by right.
Qed.

Lemma elem_of_values {V} (d : list (string * V)) v :
  v ∈ Dict.values d ↔ ∃ k, (k, v) ∈ d.
Proof.
  unfold Dict.values. rewrite list_elem_of_fmap. split.
  - intros ([k v'] & -> & Hin). by exists k.
  - intros (k & Hin). by exists (k, v).
Qed.

Lemma dict_of_elem_of {V} (kvs : list (string * V)) k v :
  (k, v) ∈ dict_of kvs → (k, v) ∈ kvs.
Proof.
  intros Hin. apply dict_of_get.
  apply DictFacts.elem_of_get; [apply dict_of_NoDup | done].
Qed.

Section pagerank_facts.
Context `{Libraries}.

(** C6: every returned score lies in [0,1]; when the raw scores are not all
    zero the result is the raw scores divided by their maximum, so some
    score is 1; when PageRank fails every node gets 0; a view without nodes
    gives the empty mapping.  PageRank is assumed to return a dictionary of
    non-negative scores. *)
Theorem compute_pagerank_normalized (G : DiGraph.t) :
  (∀ pr, nx_pagerank G = Some pr →
         NoDup (Dict.keys pr) ∧ ∀ k v, (k, v) ∈ pr → (0 <= v)%Q) →
  (∀ k v, (k, v) ∈ compute_pagerank G → (0 <= v)%Q ∧ (v <= 1)%Q) ∧
  (∀ raw, DiGraph.number_of_nodes G ≠ 0 → nx_pagerank G = Some raw →
     (∃ k v, (k, v) ∈ raw ∧ ¬ (v == 0)%Q) →
     ∃ max_pr,
       (0 < max_pr)%Q ∧ max_pr ∈ Dict.values raw ∧
       (∀ v, v ∈ Dict.values raw → (v <= max_pr)%Q) ∧
       compute_pagerank G = (λ kv, (fst kv, (snd kv / max_pr)%Q)) <$> raw ∧
       ∃ k v, (k, v) ∈ compute_pagerank G ∧ (v == 1)%Q) ∧
  (nx_pagerank G = None →
   ∀ n, n ∈ DiGraph.nodes G → Dict.get (compute_pagerank G) n = Some 0%Q) ∧
  (DiGraph.number_of_nodes G = 0 → compute_pagerank G = []).
Proof.
  intros Hlib. unfold compute_pagerank.
  destruct (DiGraph.number_of_nodes G =? 0) eqn:Hn0.
  { apply Z.eqb_eq in Hn0. split; [intros k v Hin; inversion Hin | ].
    split; [done | ]. split; [ | done].
    intros _ n Hn. exfalso. unfold DiGraph.number_of_nodes in Hn0.
    unfold DiGraph.nodes, Dict.keys in Hn.
    destruct (DiGraph.node G); [inversion Hn | simpl in Hn0; lia]. }
  apply Z.eqb_neq in Hn0.
  destruct (nx_pagerank G) as [pr|] eqn:Hpr.
  - destruct (Hlib pr eq_refl) as [Hnd Hpos].
    set (max_pr := match Dict.values pr with
                   | [] => 1%Q
                   | v :: vs => py_max v vs
                   end).
    assert (Hmax : ∀ v, v ∈ Dict.values pr → (v <= max_pr)%Q).
    { subst max_pr. destruct (Dict.values pr) as [|v0 vs].
      - intros v Hv. inversion Hv.
      - destruct (py_max_ge vs v0) as [H0 Hl].
        intros v [->|Hv]%elem_of_cons; [done | by apply Hl]. }
    assert (Hmem : Dict.values pr ≠ [] → max_pr ∈ Dict.values pr).
    { subst max_pr. destruct (Dict.values pr) as [|v0 vs]; [done | ].
      intros _. apply py_max_in. }
    assert (Hdiv : dict_of ((λ kv, (fst kv, (snd kv / max_pr)%Q)) <$> pr) =
                   (λ kv, (fst kv, (snd kv / max_pr)%Q)) <$> pr).
    { apply dict_of_fresh. by rewrite <- list_fmap_compose. }
    destruct (Qlt_le_dec 0 max_pr) as [Hlt|Hle].
    + rewrite Hdiv. split; [ | split; [ | by split]].
      * intros k v ([k0 v0] & [= -> ->] & Hin)%list_elem_of_fmap. simpl.
        assert (Hv0 : (v0 <= max_pr)%Q).
        { apply Hmax, elem_of_values. by exists k0. }
        split.
        -- apply Qle_shift_div_l; [done | ]. rewrite Qmult_0_l. by eapply Hpos.
        -- apply Qle_shift_div_r; [done | ]. by rewrite Qmult_1_l.
      * intros raw _ [= <-] (k & v & Hin & Hv). exists max_pr.
        assert (Hne : Dict.values pr ≠ []).
        { intros Hnil. assert (Hv' : v ∈ Dict.values pr).
          { apply elem_of_values. by exists k. }
          rewrite Hnil in Hv'. inversion Hv'. }
        specialize (Hmem Hne).
        split; [done | ]. split; [done | ]. split; [done | ].
        split; [done | ].
        apply elem_of_values in Hmem as [km Hkm].
        exists km, (max_pr / max_pr)%Q. split.
        -- apply list_elem_of_fmap. by exists (km, max_pr).
        -- apply Qmult_inv_r. intros Heq. rewrite Heq in Hlt.
           by apply Qlt_irrefl in Hlt.
    + split; [ | split; [ | by split]].
      * intros k v Hin. split; [by eapply Hpos | ].
        eapply Qle_trans; [ | apply (Qle_trans _ 0); [exact Hle | done]].
        apply Hmax, elem_of_values. by exists k.
      * intros raw _ [= <-] (k & v & Hin & Hv). exfalso. apply Hv.
        apply Qle_antisym; [ | by eapply Hpos].
        eapply Qle_trans; [ | exact Hle].
        apply Hmax, elem_of_values. by exists k.
  - split; [ | split; [done | split; [ | done]]].
    + intros k v Hin%dict_of_elem_of.
      apply list_elem_of_fmap in Hin as (n & [= -> ->] & _). done.
    + intros _ n Hn. by apply (dict_of_fmap_get (λ _, 0%Q)).
Qed.

End pagerank_facts.

(** ** [detect_hubs] *)

Section sorting.
Context {A : Type} (key : A → Q).

Lemma insert_desc_perm x l : insert_desc key x l ≡ₚ x :: l.
Proof.
  induction l as [|y l IH]; simpl; [done | ].
  destruct (Qlt_le_dec (key x) (key y)); [ | done].
  rewrite IH. apply perm_swap.
Qed.

Lemma sorted_desc_perm l : sorted_desc key l ≡ₚ l.
Proof.
  unfold sorted_desc. induction l as [|x l IH]; simpl; [done | ].
  by rewrite insert_desc_perm, IH.
Qed.

Lemma length_sorted_desc l : length (sorted_desc key l) = length l.
Proof. by rewrite sorted_desc_perm. Qed.

Lemma insert_desc_sorted x l :
  StronglySorted (λ a b, (key b <= key a)%Q) l →
  StronglySorted (λ a b, (key b <= key a)%Q) (insert_desc key x l).
Proof.
  induction 1 as [|y l Hs IH Hy]; simpl.
  - repeat constructor.
  - destruct (Qlt_le_dec (key x) (key y)) as [Hlt|Hle].
    + constructor; [done | ].
      rewrite Forall_forall. intros z Hz.
      rewrite insert_desc_perm in Hz. apply elem_of_cons in Hz as [->|Hz].
      * by apply Qlt_le_weak.
      * rewrite Forall_forall in Hy. by apply Hy.
    + constructor; [by constructor | ].
      constructor; [done | ].
      eapply Forall_impl; [exact Hy | ]. simpl. intros z Hz.
      by eapply Qle_trans.
Qed.

Lemma sorted_desc_sorted l :
  StronglySorted (λ a b, (key b <= key a)%Q) (sorted_desc key l).
Proof.
  unfold sorted_desc. induction l as [|x l IH]; simpl; [constructor | ].
  by apply insert_desc_sorted.
Qed.

End sorting.

Lemma sorted_desc_fmap {A B} (key : B → Q) (f : A → B) (l : list A) :
  sorted_desc key (f <$> l) = f <$> sorted_desc (key ∘ f) l.
Proof.
  unfold sorted_desc. induction l as [|x l IH]; csimpl; [done | ].
  rewrite IH. generalize (foldr (insert_desc (key ∘ f)) [] l). clear.
  intros l. induction l as [|y l IH]; csimpl; [done | ].
  destruct (Qlt_le_dec (key (f x)) (key (f y))); csimpl; [ | done].
  by rewrite IH.
Qed.

Lemma StronglySorted_take {A} (R : A → A → Prop) n (l : list A) :
  StronglySorted R l → StronglySorted R (take n l).
Proof.
  intros Hs. revert n. induction Hs as [|x l Hs IH Hx]; intros [|n]; simpl;
    try constructor; [apply IH | by apply Forall_take].
Qed.

Lemma StronglySorted_fmap {A B} (R : A → A → Prop) (R' : B → B → Prop)
    (f : A → B) (l : list A) :
  (∀ x y, R x y → R' (f x) (f y)) →
  StronglySorted R l → StronglySorted R' (f <$> l).
Proof.
  intros HR. induction 1 as [|x l Hs IH Hx]; csimpl; constructor; [done | ].
  apply Forall_fmap. eapply Forall_impl; [exact Hx | ]. intros y. apply HR.
Qed.

Lemma top_decile_le n : 1 ≤ n → 1 ≤ top_decile n ≤ n.
Proof.
  intros Hn. unfold top_decile. split; [lia | ].
  apply Z.max_lub; [done | ].
  rewrite <- (Qceiling_Z n) at 2. apply Qceiling_resp_le.
  unfold Qle, Qmult, inject_Z. simpl. lia.
Qed.

(** The hub record that [detect_hubs] makes for a node. *)
Lemma detect_hubs_unfold (G : Graph.t) (node_map : node_map) :
  NoDup (Graph.nodes G) → Graph.number_of_nodes G ≠ 0 →
  ∃ c : string → Q,
    (∀ a b, 2 ≤ Graph.number_of_nodes G → (c b <= c a)%Q →
            Graph.degree G b ≤ Graph.degree G a) ∧
    detect_hubs G node_map =
    (λ n, mk_hub n
            (default n (n_label (default no_attrs (Dict.get node_map n))))
            (Graph.degree G n))
    <$> take (Z.to_nat (top_decile (Graph.number_of_nodes G)))
          (sorted_desc c (Graph.nodes G)).
Proof.
  intros Hnd Hn0.
  assert (Hlen : len (Graph.nodes G) = Graph.number_of_nodes G).
  { unfold len, Graph.number_of_nodes, Graph.nodes, Dict.keys.
    by rewrite length_fmap. }
  unfold detect_hubs. rewrite (proj2 (Z.eqb_neq _ _) Hn0). cbv zeta.
  unfold degree_centrality.
  set (s := (1 / (inject_Z (len (Graph.nodes G)) - 1))%Q).
  exists (if len (Graph.nodes G) <=? 1 then (λ _, 1%Q)
          else (λ n, (inject_Z (Graph.degree G n) * s)%Q)).
  split.
  - intros a b Hge. rewrite <- Hlen in Hge.
    rewrite (proj2 (Z.leb_gt _ _)) by lia.
    assert (Hs : (0 < s)%Q).
    { subst s. apply Qlt_shift_div_l.
      - unfold Qlt, Qminus, Qplus, inject_Z. simpl. lia.
      - rewrite Qmult_0_l. done. }
    intros Hle. apply Qmult_le_r in Hle; [ | done].
    by rewrite <- Zle_Qle in Hle.
  - destruct (len (Graph.nodes G) <=? 1) eqn:Hle1.
    + rewrite (dict_of_fmap_fresh (λ _, 1%Q)) by done.
      rewrite (sorted_desc_fmap snd (λ n, (n, 1%Q))).
      rewrite <- fmap_take, <- list_fmap_compose.
      unfold len at 1. rewrite length_fmap, length_sorted_desc.
      fold (len (Graph.nodes G)). by rewrite Hlen.
    + rewrite (dict_of_fmap_fresh
                 (λ n, (inject_Z (Graph.degree G n) * s)%Q)) by done.
      rewrite (sorted_desc_fmap snd
                 (λ n, (n, (inject_Z (Graph.degree G n) * s)%Q))).
      rewrite <- fmap_take, <- list_fmap_compose.
      unfold len at 1. rewrite length_fmap, length_sorted_desc.
      fold (len (Graph.nodes G)). by rewrite Hlen.
Qed.

(** C7: on a view with n >= 1 nodes the hub list has max(1, ceil(0.1 n))
    entries, in non-increasing order of degree; each entry is a node of the
    view with its degree and with the label of its node record, or its id
    when the record or the label is missing.  A view without nodes gives
    the empty list. *)
Theorem detect_hubs_top_decile (G : Graph.t) (node_map : node_map) :
  NoDup (Graph.nodes G) →
  len (detect_hubs G node_map) =
    (if Graph.number_of_nodes G =? 0 then 0
     else Z.max 1 (Qceiling (inject_Z (Graph.number_of_nodes G) * (1 # 10)))) ∧
  StronglySorted (λ a b, h_degree b ≤ h_degree a) (detect_hubs G node_map) ∧
  Forall
    (λ h, h_id h ∈ Graph.nodes G ∧
          h_degree h = Graph.degree G (h_id h) ∧
          h_label h =
            match Dict.get node_map (h_id h) with
            | Some info =>
                match n_label info with Some label => label | None => h_id h end
            | None => h_id h
            end)
    (detect_hubs G node_map) ∧
  (Graph.number_of_nodes G = 0 → detect_hubs G node_map = []).
Proof.
  intros Hnd.
  destruct (Graph.number_of_nodes G =? 0) eqn:Hn0.
  { unfold detect_hubs. rewrite Hn0. repeat split; constructor. }
  apply Z.eqb_neq in Hn0.
  assert (Hn1 : 1 ≤ Graph.number_of_nodes G).
  { unfold Graph.number_of_nodes in *. lia. }
  destruct (detect_hubs_unfold G node_map Hnd Hn0) as (c & Hc & ->).
  pose proof (top_decile_le _ Hn1) as Htop.
  assert (Hlen : length (Graph.nodes G) = Z.to_nat (Graph.number_of_nodes G)).
  { unfold Graph.number_of_nodes, Graph.nodes, Dict.keys.
    by rewrite length_fmap, Nat2Z.id. }
  split; [ | split; [ | split; [ | done]]].
  - unfold len. rewrite length_fmap, length_take, length_sorted_desc, Hlen.
    fold (top_decile (Graph.number_of_nodes G)). lia.
  - destruct (decide (2 ≤ Graph.number_of_nodes G)) as [Hge|Hlt].
    + apply (StronglySorted_fmap (λ a b, (c b <= c a)%Q)).
      * intros x y Hxy. simpl. by apply Hc.
      * apply StronglySorted_take, sorted_desc_sorted.
    + assert (Hone : (length (sorted_desc c (Graph.nodes G)) ≤ 1)%nat).
      { rewrite length_sorted_desc, Hlen. lia. }
      destruct (sorted_desc c (Graph.nodes G)) as [|x [|y l]];
        [ | | simpl in Hone; lia];
        destruct (Z.to_nat (top_decile (Graph.number_of_nodes G)));
        csimpl; rewrite ?take_nil; csimpl; repeat constructor.
  - apply Forall_fmap, Forall_take, Forall_forall. intros n Hn. simpl.
    rewrite sorted_desc_perm in Hn. split; [done | ]. split; [done | ].
    destruct (Dict.get node_map n) as [info|]; simpl; [ | done].
    by destruct (n_label info).
Qed.

(** ** The views that [build_graphs] returns have each node once *)

Lemma for_each_invariant {A S} (P : S → Prop) (f : S → A → result S) l :
  (∀ s x s', P s → f s x = Ok s' → P s') →
  ∀ st st', P st → for_each f l st = Ok st' → P st'.
Proof.
  intros Hf. induction l as [|x l IH]; intros st st' HP; simpl.
  - by intros [= <-].
  - destruct (f st x) as [s1|] eqn:Hx; simpl; [ | done].
    apply IH. by eapply Hf.
Qed.

Lemma NoDup_nodes_touch G n :
  NoDup (Graph.nodes G) → NoDup (Graph.nodes (Graph.touch G n)).
Proof.
  unfold Graph.touch, Graph.nodes. destruct (Dict.mem (Graph.node G) n); simpl;
    [done | apply DictFacts.NoDup_keys_set].
Qed.

Lemma NoDup_nodes_add_edge G u v w :
  NoDup (Graph.nodes G) → NoDup (Graph.nodes (Graph.add_edge G u v w)).
Proof.
  intros Hnd. unfold Graph.add_edge.
  destruct (Dict.get _ v); by apply NoDup_nodes_touch, NoDup_nodes_touch.
Qed.

Lemma build_graphs_NoDup nodes edges Gu Gd nm :
  build_graphs nodes edges = Ok (Gu, Gd, nm) → NoDup (Graph.nodes Gu).
Proof.
  unfold build_graphs.
  destruct (for_each add_declared nodes _) as [[[Gu0 Gd0] nm0]|] eqn:Hn;
    simpl; [ | done].
  destruct (for_each add_input_edge edges _) as [[Gu1 Gd1]|] eqn:He;
    simpl; [ | done].
  intros [= <- <- <-].
  assert (H0 : NoDup (Graph.nodes Gu0)).
  { apply (for_each_invariant (λ st, NoDup (Graph.nodes (fst (fst st))))
             add_declared nodes) in Hn; [done | | constructor].
    intros [[G1 D1] m1] n s' HP. unfold add_declared.
    destruct (n_id n) as [id|]; simpl; [ | done].
    destruct (kwargs n) as [attr|]; simpl; [ | done].
    intros [= <-]. simpl in *.
    unfold Graph.add_node, Graph.nodes.
    destruct (Dict.get (Graph.node G1) id); simpl;
      by apply DictFacts.NoDup_keys_set. }
  apply (for_each_invariant (λ st, NoDup (Graph.nodes (fst st)))
           add_input_edge edges) in He; [done | | done].
  intros [G1 D1] e s' HP. unfold add_input_edge.
  destruct (e_source e) as [src|]; simpl; [ | done].
  destruct (e_target e) as [tgt|]; simpl; [ | done].
  destruct (_ || _).
  - destruct (Graph.has_edge G1 src tgt).
    + unfold Graph.weight_iadd.
      destruct (Dict.get (Graph.adj G1) src) as [nbrs|]; simpl; [ | done].
      destruct (Dict.get nbrs tgt) as [l|]; simpl; [ | done].
      destruct (Graph.data G1 !! l) as [x|]; simpl; [ | done].
      destruct (py_add x _); simpl; [ | done].
      by intros [= <-].
    + simpl. intros [= <-]. by apply NoDup_nodes_add_edge.
  - simpl. by intros [= <-].
Qed.

(** ** The theorems at the sample request *)

Example sample_undirected_nodes :
  Graph.nodes sample_undirected = ["e1"; "e2"; "e3"; "a1"; "a2"; "z"].
Proof. vm_compute. reflexivity. Qed.

Example sample_communities :
  @detect_communities sample_libraries sample_undirected =
  [("e1", 0); ("e2", 0); ("e3", 0); ("a1", 0); ("a2", 0); ("z", 1)].
Proof. vm_compute. reflexivity. Qed.

Example sample_hubs :
  detect_hubs sample_undirected sample_node_map =
  [mk_hub "e1" "Alice" 2].
Proof. vm_compute. reflexivity. Qed.

Lemma detect_communities_labels_witness :
  let connected_nodes :=
    filter (λ n, 0 < Graph.degree sample_undirected n)
      (Graph.nodes sample_undirected) in
  (∀ cl,
     @louvain_communities sample_libraries
       (Graph.subgraph sample_undirected connected_nodes) = Some cl →
     ∀ c n, c ∈ cl → n ∈ c →
            n ∈ Graph.nodes (Graph.subgraph sample_undirected connected_nodes)) ∧
  NoDup (Dict.keys (@detect_communities sample_libraries sample_undirected)) ∧
  (∀ n, n ∈ Dict.keys (@detect_communities sample_libraries sample_undirected)
        ↔ n ∈ Graph.nodes sample_undirected).
Proof.
  intros connected_nodes.
  assert (Hlib : ∀ cl,
    @louvain_communities sample_libraries
      (Graph.subgraph sample_undirected connected_nodes) = Some cl →
    ∀ c n, c ∈ cl → n ∈ c →
           n ∈ Graph.nodes (Graph.subgraph sample_undirected connected_nodes)).
  { intros cl [= <-] c n Hc Hn. by apply list_elem_of_singleton in Hc as ->. }
  split; [exact Hlib | ].
  pose proof (@detect_communities_labels sample_libraries sample_undirected Hlib)
    as (Hnd & Hkeys & _).
  by split.
Defined.

Lemma compute_pagerank_normalized_witness :
  (∀ pr, @nx_pagerank sample_libraries sample_directed = Some pr →
         NoDup (Dict.keys pr) ∧ ∀ k v, (k, v) ∈ pr → (0 <= v)%Q) ∧
  (∀ k v, (k, v) ∈ @compute_pagerank sample_libraries sample_directed →
          (0 <= v)%Q ∧ (v <= 1)%Q).
Proof.
  assert (Hlib : ∀ pr, @nx_pagerank sample_libraries sample_directed = Some pr →
    NoDup (Dict.keys pr) ∧ ∀ k v, (k, v) ∈ pr → (0 <= v)%Q).
  { intros pr Hpr. vm_compute in Hpr. injection Hpr as <-. split.
    - apply (bool_decide_unpack _). vm_compute. exact I.
    - intros k v Hin.
      repeat (apply elem_of_cons in Hin as [[= -> ->]|Hin]; [by vm_compute | ]).
      inversion Hin. }
  split; [exact Hlib | ].
  by destruct (@compute_pagerank_normalized sample_libraries sample_directed Hlib)
    as (Hrange & _).
Defined.

Lemma detect_hubs_top_decile_witness :
  NoDup (Graph.nodes sample_undirected) ∧
  len (detect_hubs sample_undirected sample_node_map) = 1 ∧
  StronglySorted (λ a b, h_degree b ≤ h_degree a)
    (detect_hubs sample_undirected sample_node_map).
Proof.
  assert (Hnd : NoDup (Graph.nodes sample_undirected)).
  { apply (bool_decide_unpack _). vm_compute. exact I. }
  split; [exact Hnd | ].
  destruct (detect_hubs_top_decile sample_undirected
              sample_node_map Hnd) as (Hlen & Hsorted & _).
  split; [ | exact Hsorted]. rewrite Hlen. vm_compute. reflexivity.
Defined.

Example sample_pagerank :
  @compute_pagerank sample_libraries sample_directed =
  [("e1", 2 # 3); ("e2", 2 # 3); ("e3", 2 # 3); ("a1", 3 # 3); ("a2", 2 # 3);
   ("z", 1 # 3)]%Q.
Proof. vm_compute. reflexivity. Qed.

Example sample_anomalies :
  @detect_anomalies sample_libraries sample_undirected sample_node_map [] =
  Ok [("e1",
       mk_anomaly "prolific_editor" (1 # 4)
         "Alice edited 7 articles (IsolationForest outlier)")].
Proof. vm_compute. reflexivity. Qed.

(** * More about the pipeline

    ** [build_graphs]: what it accepts, the node index, the degrees *)

Lemma declared_loop_edges nodes edges edges' :
  ¬ (Forall has_id nodes ∧ Forall plain_keys nodes) →
  build_graphs nodes edges' = build_graphs nodes edges ∧
  (build_graphs nodes edges = Raise (KeyError "id") ∨
   ∃ k, (k = "self" ∨ k = "node_for_adding") ∧
        build_graphs nodes edges = Raise (TypeError k)).
Proof.
  intros Hbad. unfold build_graphs.
  pose proof (declared_loop nodes Graph.empty DiGraph.empty [] []
                GraphFacts.wf_empty DiGraphFacts.dwf_empty) as Hn.
  destruct (for_each add_declared nodes _) as [[[Gu0 Gd0] nm]|ex]; simpl.
  - destruct Hn as (HF & HP & _); try done. tauto.
  - split; [done | ].
    destruct Hn as [[-> _]|(k & -> & Hk & _)]; try done; [by left | right].
    by exists k.
Qed.

(** X1: [build_graphs] returns exactly when every node record has an [id]
    and no key that names a parameter of [add_node], every edge record has
    a [source] and a [target], and the weights between each pair of nodes
    add without overflow, as integer weights always do.  The node records
    are read first: when one of them is bad the exception is
    [KeyError('id')] or the [TypeError] of the call, whatever the edges
    are; otherwise a bad edge list gives the [KeyError] of the missing
    field or the [OverflowError] of the addition. *)
Theorem build_graphs_accepts nodes edges :
  ((∃ built, build_graphs nodes edges = Ok built) ↔
   Forall has_id nodes ∧ Forall plain_keys nodes ∧
   Forall has_ends edges ∧ weights_add edges) ∧
  (Forall int_weighted edges → weights_add edges) ∧
  (¬ (Forall has_id nodes ∧ Forall plain_keys nodes) →
   (∀ edges', build_graphs nodes edges' = build_graphs nodes edges) ∧
   (build_graphs nodes edges = Raise (KeyError "id") ∨
    ∃ k, (k = "self" ∨ k = "node_for_adding") ∧
         build_graphs nodes edges = Raise (TypeError k))) ∧
  (Forall plain_keys nodes → ¬ Forall has_id nodes →
   build_graphs nodes edges = Raise (KeyError "id")) ∧
  (Forall has_id nodes → Forall plain_keys nodes →
   ¬ (Forall has_ends edges ∧ weights_add edges) →
   build_graphs nodes edges = Raise (KeyError "source") ∨
   build_graphs nodes edges = Raise (KeyError "target") ∨
   (build_graphs nodes edges = Raise OverflowError ∧ ¬ weights_add edges)).
Proof.
  pose proof (build_graphs_spec nodes edges) as Hs.
  split; [ | split; [ | split; [ | split]]].
  - split.
    + intros [[[Gu Gd] nm] Hb]. rewrite Hb in Hs.
      destruct Hs as (? & ? & ? & Hu & _).
      repeat (split; [done | ]). by eapply und_inv_weights_add.
    + intros (Hn & Hp & He & Ha).
      destruct (build_graphs_total nodes edges Hn Hp He Ha)
        as (Gu & Gd & nm & ->).
      by eexists.
  - apply weights_add_int.
  - intros Hbad. split.
    + intros edges'. by apply declared_loop_edges.
    + by apply (declared_loop_edges nodes edges edges).
  - intros Hp Hbad.
    destruct (declared_loop_edges nodes edges edges)
      as [_ [Hd|(k & _ & Hd)]]; [tauto | done | ].
    exfalso. rewrite Hd in Hs.
    destruct Hs as [[Hk _]|[(k' & _ & _ & Hk)|[[[Hk|Hk] _]|[Hk _]]]]; done.
  - intros Hn Hp Hbad.
    destruct (build_graphs nodes edges) as [[[Gu Gd] nm]|ex].
    + exfalso. apply Hbad. destruct Hs as (_ & _ & ? & Hu & _).
      split; [done | by eapply und_inv_weights_add].
    + destruct Hs as [[_ Hk]|[(k & _ & _ & Hk)|[[[-> | ->] _]|[-> Hk]]]];
        try done; tauto.
Qed.

Lemma add_input_edge_skip st e :
  has_ends e → ¬ in_undirected e → add_input_edge st e = Ok st.
Proof.
  intros [[src Hs] [tgt Ht]] Hq. destruct st as [Gu Gd].
  unfold add_input_edge. rewrite Hs, Ht. cbn [getitem bind].
  fold (view_of e). rewrite in_undirected_bool.
  rewrite bool_decide_eq_false_2 by done. cbn [bind].
  rewrite bool_decide_eq_false_2; [done | ].
  intros Hb. apply Hq. by left.
Qed.

(** X2: edge records whose view is neither "bipartite" nor "coedit" are
    skipped without an error: with every edge record well formed, dropping
    them from the request gives the same graphs and the same node index. *)
Theorem unknown_views_ignored nodes edges :
  Forall has_ends edges →
  build_graphs nodes edges = build_graphs nodes (filter in_undirected edges).
Proof.
  intros He. unfold build_graphs.
  destruct (for_each add_declared nodes _) as [[[Gu0 Gd0] nm]|ex]; simpl;
    [ | done].
  f_equal. generalize (Gu0, Gd0). clear Gu0 Gd0.
  induction He as [|e edges He Hes IH]; intros st; [done | ].
  destruct (decide (in_undirected e)) as [Hq|Hq].
  - rewrite filter_cons_True by done. cbn [for_each].
    destruct (add_input_edge st e); simpl; [apply IH | done].
  - rewrite filter_cons_False by done. cbn [for_each].
    rewrite add_input_edge_skip by done. apply IH.
Qed.

Lemma unknown_views_ignored_witness :
  Forall has_ends sample_edges ∧
  build_graphs sample_nodes sample_edges =
  build_graphs sample_nodes (filter in_undirected sample_edges).
Proof.
  assert (He : Forall has_ends sample_edges).
  { repeat constructor; by eexists. }
  split; [exact He | ].
  apply (unknown_views_ignored sample_nodes sample_edges He).
Defined.

Lemma node_map_loop nodes : ∀ Gu Gd (nm : node_map) Gu' Gd' nm' id,
  for_each add_declared nodes (Gu, Gd, nm) = Ok (Gu', Gd', nm') →
  Dict.get nm' id =
  match last (filter (λ n, n_id n = Some id) nodes) with
  | Some n => Some n
  | None => Dict.get nm id
  end.
Proof.
  induction nodes as [|n nodes IH]; intros Gu Gd nm Gu' Gd' nm' id.
  - simpl. by intros [= <- <- <-].
  - cbn [for_each]. destruct (n_id n) as [i|] eqn:Hi.
    + destruct (decide (plain_keys n)) as [Hp|Hp].
      * rewrite (add_declared_Some _ _ _ _ _ Hi Hp). cbn [bind].
        intros Hrest. rewrite (IH _ _ _ _ _ _ id Hrest).
        destruct (decide (i = id)) as [->|Hne].
        -- rewrite filter_cons_True by done. rewrite last_cons.
           destruct (last (filter _ nodes)); [done | ].
           by rewrite DictFacts.get_set_eq.
        -- rewrite filter_cons_False by congruence.
           destruct (last (filter _ nodes)); [done | ].
           by rewrite DictFacts.get_set_ne.
      * by destruct (add_declared_TypeError (Gu, Gd, nm) n i Hi Hp)
          as (k & _ & ->).
    + rewrite (add_declared_None _ _ Hi). done.
Qed.

(** X3: the node index maps an id to the LAST node record that declares
    it, and has no entry for an id that no record declares. *)
Theorem node_map_last nodes edges Gu Gd nm :
  build_graphs nodes edges = Ok (Gu, Gd, nm) →
  ∀ id, Dict.get nm id = last (filter (λ n, n_id n = Some id) nodes).
Proof.
  unfold build_graphs.
  destruct (for_each add_declared nodes _) as [[[Gu0 Gd0] nm0]|] eqn:Hn;
    simpl; [ | done].
  destruct (for_each add_input_edge edges _) as [[Gu1 Gd1]|]; simpl; [ | done].
  intros [= <- <- <-] id. rewrite (node_map_loop _ _ _ _ _ _ _ id Hn).
  by destruct (last _).
Qed.

Lemma node_map_last_witness :
  ∃ Gu Gd nm,
    build_graphs (sample_nodes ++ [mk_node (Some "e1") (Some "Bob") None None []])
      sample_edges = Ok (Gu, Gd, nm) ∧
    ∀ id, Dict.get nm id =
          last (filter (λ n, n_id n = Some id)
                  (sample_nodes ++ [mk_node (Some "e1") (Some "Bob") None None []])).
Proof.
  eexists _, _, _. split; [vm_compute; reflexivity | ].
  eapply (node_map_last _ sample_edges). vm_compute. reflexivity.
Defined.

Lemma degree_nonneg G n : 0 ≤ Graph.degree G n.
Proof. unfold Graph.degree. destruct (Dict.mem _ n); lia. Qed.

Lemma degree_pos G n :
  0 < Graph.degree G n ↔ ∃ v l, Graph.edge_loc G n v = Some l.
Proof.
  unfold Graph.degree, Graph.edge_loc.
  destruct (Graph.neighbors G n) as [|[v l] nbrs]; simpl.
  - split; [lia | by intros (v & l & ?)].
  - split; [intros _ | destruct (Dict.mem _ n); lia].
    exists v, l. by rewrite decide_True.
Qed.

(** X4: in the undirected view a node has positive degree exactly when it
    is an endpoint of some bipartite or coedit edge record; every other
    node is isolated (degree 0). *)
Theorem degree_positive_iff nodes edges Gu Gd nm :
  build_graphs nodes edges = Ok (Gu, Gd, nm) →
  ∀ n, 0 ≤ Graph.degree Gu n ∧
       (0 < Graph.degree Gu n ↔
        ∃ e, e ∈ edges ∧ in_undirected e ∧ endpoint e n).
Proof.
  intros (_ & He & Hu & _)%build_graphs_Ok n.
  split; [apply degree_nonneg | ]. rewrite degree_pos. split.
  - intros (v & l & Hl).
    destruct (und_inv_present _ _ _ _ _ _ Hu Hl) as (e & Hin & Hq & Hj).
    exists e. apply joins_endpoint in Hj. tauto.
  - intros (e & Hin & Hq & Hend).
    rewrite Forall_forall in He. destruct (He e Hin) as [[src Hs] [tgt Ht]].
    assert (Hj : ∃ v, joins e n v).
    { destruct Hend as [Hn|Hn].
      - exists tgt. left. split; congruence.
      - exists src. right. split; congruence. }
    destruct Hj as [v Hj].
    assert (Hh : Graph.has_edge Gu n v = true).
    { apply (und_inv_has_edge _ _ _ _ _ Hu). by exists e. }
    apply GraphFacts.has_edge_loc in Hh as [l Hl]. by exists v, l.
Qed.

Lemma degree_positive_iff_witness :
  ∃ Gu Gd nm,
    build_graphs sample_nodes sample_edges = Ok (Gu, Gd, nm) ∧
    ∀ n, 0 ≤ Graph.degree Gu n ∧
         (0 < Graph.degree Gu n ↔
          ∃ e, e ∈ sample_edges ∧ in_undirected e ∧ endpoint e n).
Proof.
  eexists _, _, _. split; [vm_compute; reflexivity | ].
  eapply (degree_positive_iff sample_nodes sample_edges).
  vm_compute. reflexivity.
Defined.

(** ** [detect_hubs] and [evaluate_hubs] *)

Lemma StronglySorted_app_cross {A} (R : A → A → Prop) (l1 l2 : list A) :
  StronglySorted R (l1 ++ l2) → ∀ x y, x ∈ l1 → y ∈ l2 → R x y.
Proof.
  induction l1 as [|a l1 IH]; simpl; intros Hs x y Hx Hy; [inversion Hx | ].
  apply StronglySorted_inv in Hs as [Hs Ha].
  apply elem_of_cons in Hx as [->|Hx]; [ | by apply IH].
  rewrite Forall_forall in Ha. apply Ha. rewrite elem_of_app. by right.
Qed.

Lemma StronglySorted_head {A} (R : A → A → Prop) (x : A) (l : list A) :
  StronglySorted R (x :: l) → ∀ y, y ∈ l → R x y.
Proof.
  intros [_ Hx]%StronglySorted_inv y Hy.
  rewrite Forall_forall in Hx. by apply Hx.
Qed.

(** X5: the hubs are distinct nodes, and they are the nodes of highest
    degree: no node outside the hub list has a larger degree than a hub. *)
Theorem hubs_are_top (G : Graph.t) (node_map : node_map) :
  NoDup (Graph.nodes G) →
  NoDup (h_id <$> detect_hubs G node_map) ∧
  ∀ h n, h ∈ detect_hubs G node_map → n ∈ Graph.nodes G →
         n ∉ h_id <$> detect_hubs G node_map →
         Graph.degree G n ≤ h_degree h.
Proof.
  intros Hnd.
  destruct (decide (Graph.number_of_nodes G = 0)) as [Hn0|Hn0].
  { unfold detect_hubs. rewrite (proj2 (Z.eqb_eq _ _) Hn0).
    split; [constructor | ]. intros h n Hh. inversion Hh. }
  destruct (detect_hubs_unfold G node_map Hnd Hn0) as (c & Hc & ->).
  set (k := Z.to_nat (top_decile (Graph.number_of_nodes G))).
  set (sorted := sorted_desc c (Graph.nodes G)).
  assert (Hids : h_id <$>
    ((λ n, mk_hub n
             (default n (n_label (default no_attrs (Dict.get node_map n))))
             (Graph.degree G n)) <$> take k sorted) = take k sorted).
  { rewrite <- list_fmap_compose. apply list_fmap_id. }
  rewrite Hids.
  assert (Hperm : sorted ≡ₚ Graph.nodes G) by apply sorted_desc_perm.
  split.
  - assert (Hs : NoDup (take k sorted ++ drop k sorted)).
    { rewrite take_drop. by rewrite Hperm. }
    by apply NoDup_app in Hs as [? _].
  - intros h n (m & -> & Hm)%list_elem_of_fmap Hn Hout. simpl.
    assert (Hdrop : n ∈ drop k sorted).
    { rewrite <- Hperm, <- (take_drop k sorted), elem_of_app in Hn. tauto. }
    assert (Hlen : length sorted = Z.to_nat (Graph.number_of_nodes G)).
    { subst sorted. rewrite length_sorted_desc.
      unfold Graph.number_of_nodes, Graph.nodes, Dict.keys.
      by rewrite length_fmap, Nat2Z.id. }
    destruct (decide (2 ≤ Graph.number_of_nodes G)) as [Hge|Hlt].
    + apply Hc; [done | ].
      apply (StronglySorted_app_cross (λ a b, (c b <= c a)%Q)
               (take k sorted) (drop k sorted)); [ | done | done].
      rewrite take_drop. apply sorted_desc_sorted.
    + exfalso. rewrite drop_ge in Hdrop; [inversion Hdrop | ].
      pose proof (top_decile_le (Graph.number_of_nodes G)) as Htop.
      unfold Graph.number_of_nodes in *. subst k. lia.
Qed.

(** The hub list is made from the first [top_decile] ids of the nodes in
    non-increasing order of degree. *)
Lemma detect_hubs_shape (G : Graph.t) (node_map : node_map) :
  NoDup (Graph.nodes G) → Graph.number_of_nodes G ≠ 0 →
  ∃ ids rest,
    ids ++ rest ≡ₚ Graph.nodes G ∧
    len ids = top_decile (Graph.number_of_nodes G) ∧
    detect_hubs G node_map =
      (λ n, mk_hub n
              (default n (n_label (default no_attrs (Dict.get node_map n))))
              (Graph.degree G n)) <$> ids ∧
    StronglySorted (λ a b, Graph.degree G b ≤ Graph.degree G a) ids ∧
    ∀ x y, x ∈ ids → y ∈ rest → Graph.degree G y ≤ Graph.degree G x.
Proof.
  intros Hnd Hn0.
  destruct (detect_hubs_unfold G node_map Hnd Hn0) as (c & Hc & ->).
  set (k := Z.to_nat (top_decile (Graph.number_of_nodes G))).
  set (sorted := sorted_desc c (Graph.nodes G)).
  assert (Hperm : sorted ≡ₚ Graph.nodes G) by apply sorted_desc_perm.
  assert (Hlen : length sorted = Z.to_nat (Graph.number_of_nodes G)).
  { subst sorted. rewrite length_sorted_desc.
    unfold Graph.number_of_nodes, Graph.nodes, Dict.keys.
    by rewrite length_fmap, Nat2Z.id. }
  assert (Hn1 : 1 ≤ Graph.number_of_nodes G).
  { unfold Graph.number_of_nodes in *. lia. }
  pose proof (top_decile_le _ Hn1) as Htop.
  exists (take k sorted), (drop k sorted).
  split; [by rewrite take_drop | ]. split.
  { unfold len. rewrite length_take, Hlen. subst k. lia. }
  split; [done | ].
  destruct (decide (2 ≤ Graph.number_of_nodes G)) as [Hge|Hlt].
  - assert (Hs : StronglySorted (λ a b, Graph.degree G b ≤ Graph.degree G a)
                   sorted).
    { rewrite <- (list_fmap_id sorted).
      apply (StronglySorted_fmap (λ a b, (c b <= c a)%Q)).
      - intros x y. by apply Hc.
      - apply sorted_desc_sorted. }
    split; [by apply StronglySorted_take | ].
    intros x y Hx Hy.
    apply (StronglySorted_app_cross
             (λ a b, Graph.degree G b ≤ Graph.degree G a)
             (take k sorted) (drop k sorted));
      [by rewrite take_drop | done | done].
  - assert (Hone : (length sorted ≤ 1)%nat) by lia.
    split.
    + destruct sorted as [|x [|y l]]; [ | | simpl in Hone; lia];
        destruct k; simpl; rewrite ?take_nil; repeat constructor.
    + intros x y _ Hy. exfalso.
      rewrite drop_ge in Hy; [inversion Hy | subst k; lia].
Qed.

Lemma sum_Z_zero (l : list Z) : (∀ x, x ∈ l → x = 0) → sum_Z l = 0.
Proof.
  induction l as [|x l IH]; intros Hl; [done | ].
  rewrite sum_Z_cons, (Hl x) by left. rewrite IH; [done | ].
  intros y Hy. apply Hl. by right.
Qed.

Section hub_evaluation.
Context `{Libraries}.

(** X6: on a view with at least one node, the hub evaluation counts
    max(1, ceil(0.1 n)) hubs, and its [maxDegree] is the largest degree of
    the whole view, reached by some node; on a view where that is 0 (no
    edges) the concentration is 0 rather than a division by zero. *)
Theorem evaluate_hubs_max (G : Graph.t) (node_map : node_map) :
  NoDup (Graph.nodes G) → Graph.number_of_nodes G ≠ 0 →
  hubCount (evaluate_hubs (detect_hubs G node_map)) =
    top_decile (Graph.number_of_nodes G) ∧
  (∀ n, n ∈ Graph.nodes G →
        Graph.degree G n ≤ maxDegree (evaluate_hubs (detect_hubs G node_map))) ∧
  (∃ n, n ∈ Graph.nodes G ∧
        Graph.degree G n = maxDegree (evaluate_hubs (detect_hubs G node_map))) ∧
  (maxDegree (evaluate_hubs (detect_hubs G node_map)) = 0 →
   hubConcentration (evaluate_hubs (detect_hubs G node_map)) = 0%Q).
Proof.
  intros Hnd Hn0.
  destruct (detect_hubs_shape G node_map Hnd Hn0)
    as (ids & rest & Hperm & Hlen & -> & Hs & Hcross).
  assert (Hn1 : 1 ≤ Graph.number_of_nodes G).
  { unfold Graph.number_of_nodes in *. lia. }
  pose proof (top_decile_le _ Hn1) as Htop.
  destruct ids as [|i0 ids]; [unfold len in Hlen; simpl in Hlen; lia | ].
  csimpl. split; [ | split; [ | split]].
  - rewrite <- Hlen. unfold len. simpl. by rewrite length_fmap.
  - intros n Hn. rewrite <- Hperm in Hn.
    apply elem_of_app in Hn as [[->|Hn]%elem_of_cons|Hn].
    + lia.
    + by apply (StronglySorted_head _ _ _ Hs).
    + apply Hcross; [left | done].
  - exists i0. split; [ | done]. rewrite <- Hperm. left.
  - intros H0.
    assert (Hz : sum_Z (Graph.degree G i0 ::
      (h_degree <$> ((λ n, mk_hub n
         (default n (n_label (default no_attrs (Dict.get node_map n))))
         (Graph.degree G n)) <$> ids))) = 0).
    { apply sum_Z_zero. intros x [->|Hx]%elem_of_cons; [done | ].
      apply list_elem_of_fmap in Hx as (h & -> & Hh).
      apply list_elem_of_fmap in Hh as (m & -> & Hm). simpl.
      pose proof (degree_nonneg G m).
      pose proof (StronglySorted_head _ _ _ Hs m Hm). simpl in *. lia. }
    rewrite sum_Z_cons in Hz. rewrite Hz. done.
Qed.

End hub_evaluation.

Lemma hubs_are_top_witness :
  NoDup (Graph.nodes sample_undirected) ∧
  NoDup (h_id <$> detect_hubs sample_undirected sample_node_map) ∧
  ∀ h n, h ∈ detect_hubs sample_undirected sample_node_map →
         n ∈ Graph.nodes sample_undirected →
         n ∉ h_id <$> detect_hubs sample_undirected sample_node_map →
         Graph.degree sample_undirected n ≤ h_degree h.
Proof.
  assert (Hnd : NoDup (Graph.nodes sample_undirected)).
  { apply (bool_decide_unpack _). vm_compute. exact I. }
  split; [exact Hnd | ].
  apply (hubs_are_top sample_undirected sample_node_map Hnd).
Defined.

Lemma evaluate_hubs_max_witness :
  NoDup (Graph.nodes sample_undirected) ∧
  Graph.number_of_nodes sample_undirected ≠ 0 ∧
  hubCount (@evaluate_hubs sample_libraries
              (detect_hubs sample_undirected sample_node_map)) = 1 ∧
  maxDegree (@evaluate_hubs sample_libraries
               (detect_hubs sample_undirected sample_node_map)) = 2.
Proof.
  assert (Hnd : NoDup (Graph.nodes sample_undirected)).
  { apply (bool_decide_unpack _). vm_compute. exact I. }
  assert (Hn0 : Graph.number_of_nodes sample_undirected ≠ 0).
  { vm_compute. discriminate. }
  split; [exact Hnd | ]. split; [exact Hn0 | ].
  destruct (@evaluate_hubs_max sample_libraries sample_undirected
              sample_node_map Hnd Hn0) as (Hcount & _).
  split; [rewrite Hcount | ]; vm_compute; reflexivity.
Defined.

(** ** [detect_communities] and [evaluate_communities] *)

Section community_fallbacks.
Context `{Libraries}.

(** X7: when Louvain raises, every node becomes a community of its own:
    the label of a node is its position in [G.nodes()], so two different
    nodes never share a label. *)
Theorem louvain_failure_singletons (G : Graph.t) :
  NoDup (Graph.nodes G) →
  2 ≤ len (filter (λ n, 0 < Graph.degree G n) (Graph.nodes G)) →
  louvain_communities
    (Graph.subgraph G (filter (λ n, 0 < Graph.degree G n) (Graph.nodes G)))
  = None →
  (∀ i n, Graph.nodes G !! i = Some n →
          Dict.get (detect_communities G) n = Some (Z.of_nat i)) ∧
  (∀ n m c, Dict.get (detect_communities G) n = Some c →
            Dict.get (detect_communities G) m = Some c → n = m).
Proof.
  intros Hnd Hc Hl.
  assert (Hn : 2 ≤ Graph.number_of_nodes G).
  { etrans; [exact Hc | ]. unfold len, Graph.number_of_nodes.
    apply inj_le. etrans; [apply length_filter | ].
    unfold Graph.nodes, Dict.keys. by rewrite length_fmap. }
  assert (Heq : detect_communities G =
    (λ '(i, n), (n, i)) <$> enumerate (Graph.nodes G)).
  { unfold detect_communities.
    rewrite (proj2 (Z.ltb_ge _ _) Hn), (proj2 (Z.ltb_ge _ _) Hc), Hl.
    apply dict_of_fresh. by rewrite keys_enumerate. }
  assert (Hget : ∀ n c, Dict.get (detect_communities G) n = Some c →
    ∃ i, c = Z.of_nat i ∧ Graph.nodes G !! i = Some n).
  { intros n c Hg%DictFacts.get_elem_of. rewrite Heq in Hg.
    apply list_elem_of_fmap in Hg as ([j m] & [= -> ->] & Hin).
    apply elem_of_lookup_imap in Hin as (i & m' & [= -> ->] & Hi).
    by exists i. }
  split.
  - intros i n Hi. apply DictFacts.elem_of_get.
    + unfold Dict.keys. by rewrite Heq, keys_enumerate.
    + rewrite Heq. apply list_elem_of_fmap. exists (Z.of_nat i, n).
      split; [done | ]. apply elem_of_lookup_imap. by exists i, n.
  - intros n m c (i & -> & Hi)%Hget (j & Hij & Hj)%Hget.
    apply Nat2Z.inj in Hij as <-. congruence.
Qed.

(** X8: in a view where no node has positive degree, every node gets the
    label 0 and the community evaluation is the zeroed block: Louvain and
    the modularity are not called. *)
Theorem edgeless_communities (G : Graph.t) :
  (∀ n, n ∈ Graph.nodes G → Graph.degree G n = 0) →
  (∀ n, n ∈ Graph.nodes G → Dict.get (detect_communities G) n = Some 0) ∧
  evaluate_communities G (detect_communities G) = zero_community_eval.
Proof.
  intros Hdeg.
  assert (Hconn : filter (λ n, 0 < Graph.degree G n) (Graph.nodes G) = []).
  { apply elem_of_nil_inv. intros n [Hpos Hn]%list_elem_of_filter.
    rewrite (Hdeg n Hn) in Hpos. lia. }
  assert (Heq : detect_communities G = dict_of ((λ n, (n, 0)) <$> Graph.nodes G)).
  { unfold detect_communities. rewrite Hconn.
    by destruct (Graph.number_of_nodes G <? 2). }
  split.
  - intros n Hn. rewrite Heq. by apply (dict_of_fmap_get (λ _, 0)).
  - unfold evaluate_communities.
    assert (He : Graph.number_of_edges G = 0).
    { unfold Graph.number_of_edges. fold (sum_Z (Graph.degree G <$> Graph.nodes G)).
      rewrite sum_Z_zero; [done | ].
      intros x (n & -> & Hn)%list_elem_of_fmap. by apply Hdeg. }
    rewrite He. by rewrite orb_true_r.
Qed.

End community_fallbacks.

Lemma louvain_failure_singletons_witness :
  NoDup (Graph.nodes triangle) ∧
  2 ≤ len (filter (λ n, 0 < Graph.degree triangle n) (Graph.nodes triangle)) ∧
  @detect_communities failing_libraries triangle = [("a", 0); ("b", 1); ("c", 2)] ∧
  (∀ n m c,
     Dict.get (@detect_communities failing_libraries triangle) n = Some c →
     Dict.get (@detect_communities failing_libraries triangle) m = Some c →
     n = m).
Proof.
  assert (Hnd : NoDup (Graph.nodes triangle)).
  { apply (bool_decide_unpack _). vm_compute. exact I. }
  assert (Hc : 2 ≤ len (filter (λ n, 0 < Graph.degree triangle n)
                          (Graph.nodes triangle))).
  { vm_compute. discriminate. }
  split; [exact Hnd | ]. split; [exact Hc | ].
  split; [vm_compute; reflexivity | ].
  apply (@louvain_failure_singletons failing_libraries triangle Hnd Hc).
  reflexivity.
Defined.

Lemma edgeless_communities_witness :
  (∀ n, n ∈ Graph.nodes (Graph.add_node (Graph.add_node Graph.empty "a" no_attrs)
                           "b" no_attrs) →
        Graph.degree (Graph.add_node (Graph.add_node Graph.empty "a" no_attrs)
                        "b" no_attrs) n = 0) ∧
  @evaluate_communities sample_libraries
    (Graph.add_node (Graph.add_node Graph.empty "a" no_attrs) "b" no_attrs)
    (@detect_communities sample_libraries
       (Graph.add_node (Graph.add_node Graph.empty "a" no_attrs) "b" no_attrs))
  = zero_community_eval.
Proof.
  assert (Hdeg : ∀ n,
    n ∈ Graph.nodes (Graph.add_node (Graph.add_node Graph.empty "a" no_attrs)
                       "b" no_attrs) →
    Graph.degree (Graph.add_node (Graph.add_node Graph.empty "a" no_attrs)
                    "b" no_attrs) n = 0).
  { intros n Hn. vm_compute in Hn.
    apply elem_of_cons in Hn as [->|Hn]; [by vm_compute | ].
    apply elem_of_cons in Hn as [->|Hn]; [by vm_compute | inversion Hn]. }
  split; [exact Hdeg | ].
  by destruct (@edgeless_communities sample_libraries _ Hdeg) as [_ ?].
Defined.

(** ** [detect_anomalies] and [evaluate_anomalies] *)





Section anomaly_facts.
Context `{Libraries}.




End anomaly_facts.


Section anomaly_reports.
Context `{Libraries}.





(** X11: on an accepted request whose undirected view has fewer than 5
    nodes the IsolationForest is not consulted: the handler returns
    results, with no anomaly and the zeroed anomaly evaluation, whatever
    the libraries do. *)
Theorem small_view_no_anomalies (data : payload) Gu Gd nm :
  3 ≤ len (default [] (p_nodes data)) →
  build_graphs (default [] (p_nodes data)) (default [] (p_edges data))
  = Ok (Gu, Gd, nm) →
  Graph.number_of_nodes Gu < 5 →
  ∃ r, analyze data = Results r ∧
       r_anomalies r = [] ∧
       ev_anomaly (r_evaluation r) = zero_anomaly_eval ∧
       r_communities r = detect_communities Gu ∧
       r_pagerank r = compute_pagerank Gd ∧
       r_hubs r = detect_hubs Gu nm.
Proof.
  intros H3 Hb Hn. unfold analyze, analyze_body.
  rewrite (proj2 (Z.ltb_ge _ _) H3), Hb. cbn [bind].
  unfold detect_anomalies. rewrite (proj2 (Z.ltb_lt _ _) Hn). cbn [bind].
  eexists. split; [reflexivity | ]. by repeat split.
Qed.

(** X12: the anomaly evaluation counts every entry once; an entry is
    counted in at most one of the two named categories, so the two counts
    together never exceed the total; without entries the average is 0. *)
Theorem evaluate_anomalies_counts (anomalies : list (string * anomaly)) :
  totalCount (evaluate_anomalies anomalies) = len anomalies ∧
  0 ≤ prolificEditors (evaluate_anomalies anomalies) ∧
  0 ≤ coordinatedEdits (evaluate_anomalies anomalies) ∧
  prolificEditors (evaluate_anomalies anomalies)
  + coordinatedEdits (evaluate_anomalies anomalies)
  ≤ totalCount (evaluate_anomalies anomalies) ∧
  (anomalies = [] → evaluate_anomalies anomalies = zero_anomaly_eval).
Proof.
  unfold evaluate_anomalies. cbv zeta. simpl.
  split; [unfold len, Dict.values; by rewrite length_fmap | ].
  split; [unfold len; lia | ]. split; [unfold len; lia | ]. split.
  - generalize (Dict.values anomalies). intros l. unfold len.
    induction l as [|a l IH]; [done | ].
    rewrite !filter_cons.
    destruct (decide (a_type a = "prolific_editor")) as [Hp|Hp];
      destruct (decide (a_type a = "coordinated_edit")) as [Hc|Hc];
      simpl; try lia.
    rewrite Hp in Hc. discriminate.
  - by intros ->.
Qed.

End anomaly_reports.


Example flagged_sample :
  @detect_anomalies flagging_libraries sample_undirected sample_node_map [] =
  Ok [("e1",
       mk_anomaly "prolific_editor" 1
         "Alice edited 7 articles (IsolationForest outlier)");
      ("a1",
       mk_anomaly "structural_outlier" (1 # 5)
         "Rocq flagged as structural outlier by IsolationForest")].
Proof. vm_compute. reflexivity. Qed.


Lemma small_view_no_anomalies_witness :
  3 ≤ len (default [] (p_nodes three_node_payload)) ∧
  ∃ r, @analyze failing_libraries three_node_payload = Results r ∧
       r_anomalies r = [] ∧
       ev_anomaly (r_evaluation r) = zero_anomaly_eval.
Proof.
  split; [vm_compute; discriminate | ].
  assert (Hb : ∃ Gu Gd nm,
    build_graphs (default [] (p_nodes three_node_payload))
      (default [] (p_edges three_node_payload)) = Ok (Gu, Gd, nm) ∧
    Graph.number_of_nodes Gu < 5).
  { eexists _, _, _. split; vm_compute; reflexivity. }
  destruct Hb as (Gu & Gd & nm & Hb & Hn).
  destruct (@small_view_no_anomalies failing_libraries three_node_payload
              Gu Gd nm) as (r & Hr & Ha & He & _); [ | done | done | ].
  - vm_compute. discriminate.
  - exists r. split; [exact Hr | ]. split; [exact Ha | exact He].
Defined.

(** ** [evaluate_pagerank] *)

Lemma insert_asc_perm x l : insert_asc x l ≡ₚ x :: l.
Proof.
  induction l as [|y l IH]; simpl; [done | ].
  destruct (Qlt_le_dec y x); [ | done]. rewrite IH. apply perm_swap.
Qed.

Lemma sorted_asc_perm l : sorted_asc l ≡ₚ l.
Proof.
  unfold sorted_asc. induction l as [|x l IH]; simpl; [done | ].
  by rewrite insert_asc_perm, IH.
Qed.

Lemma sum_Q_zero (l : list Q) :
  Forall (λ x, (x == 0)%Q) l → (sum_Q l == 0)%Q.
Proof.
  unfold sum_Q. induction 1 as [|x l Hx Hl IH]; simpl; [done | ].
  rewrite Hx, IH. done.
Qed.

Lemma sum_Q_nonneg (l : list Q) :
  Forall (λ x, (0 <= x)%Q) l → (0 <= sum_Q l)%Q.
Proof.
  unfold sum_Q. induction 1 as [|x l Hx Hl IH]; simpl; [done | ].
  change (0 + 0 <= x + foldr Qplus 0 l)%Q. by apply Qplus_le_compat.
Qed.

Lemma sum_Q_drop (l : list Q) k :
  Forall (λ x, (0 <= x)%Q) l →
  (0 <= sum_Q (drop k l))%Q ∧ (sum_Q (drop k l) <= sum_Q l)%Q.
Proof.
  intros Hl. split; [by apply sum_Q_nonneg, Forall_drop | ].
  revert k. induction Hl as [|x l Hx Hl IH]; intros [|k]; simpl;
    try apply Qle_refl.
  eapply Qle_trans; [apply IH | ]. unfold sum_Q. simpl.
  apply (Qle_trans _ (0 + foldr Qplus 0 l)%Q).
  - rewrite Qplus_0_l. apply Qle_refl.
  - apply Qplus_le_compat; [done | apply Qle_refl].
Qed.

Section pagerank_evaluation.
Context `{Libraries}.

(** X13: when every score is 0 (the fallback of a failed PageRank), the
    Gini coefficient, the entropy and the top-10% share are all the
    rounding of 0: the mean and the total are tested before they divide. *)
Theorem evaluate_pagerank_all_zero (pagerank : list (string * Q)) :
  pagerank ≠ [] →
  Forall (λ kv, (snd kv == 0)%Q) pagerank →
  evaluate_pagerank pagerank =
  {| gini := py_round 0 4;
     entropy := py_round 0 4;
     top10pct := py_round 0 3;
     nodeCount := len pagerank |}.
Proof.
  intros Hne Hz. unfold evaluate_pagerank. cbv zeta.
  assert (Hlen : len (Dict.values pagerank) = len pagerank).
  { unfold len, Dict.values. by rewrite length_fmap. }
  rewrite Hlen.
  assert (Hn : len pagerank ≠ 0).
  { unfold len. destruct pagerank; [done | simpl; lia]. }
  rewrite (proj2 (Z.eqb_neq _ _) Hn).
  assert (Hsum : (sum_Q (sorted_asc (Dict.values pagerank)) == 0)%Q).
  { apply sum_Q_zero. rewrite sorted_asc_perm. unfold Dict.values.
    by apply Forall_fmap. }
  destruct (Qlt_le_dec 0 (sum_Q (sorted_asc (Dict.values pagerank))
                          / inject_Z (len pagerank))) as [Hlt|_].
  { exfalso. rewrite Hsum in Hlt. unfold Qdiv in Hlt.
    rewrite Qmult_0_l in Hlt. by apply Qlt_irrefl in Hlt. }
  destruct (Qlt_le_dec 0 (sum_Q (sorted_asc (Dict.values pagerank))))
    as [Hlt|_].
  { exfalso. rewrite Hsum in Hlt. by apply Qlt_irrefl in Hlt. }
  done.
Qed.

(** X14: for non-negative scores the share of the top 10% that the
    evaluation rounds lies between 0 and 1, and the node count is the
    number of scores. *)
Theorem evaluate_pagerank_top_share (pagerank : list (string * Q)) :
  pagerank ≠ [] →
  Forall (λ kv, (0 <= snd kv)%Q) pagerank →
  nodeCount (evaluate_pagerank pagerank) = len pagerank ∧
  ∃ share,
    top10pct (evaluate_pagerank pagerank) = py_round share 3 ∧
    (0 <= share)%Q ∧ (share <= 1)%Q.
Proof.
  intros Hne Hpos. unfold evaluate_pagerank. cbv zeta.
  assert (Hlen : len (Dict.values pagerank) = len pagerank).
  { unfold len, Dict.values. by rewrite length_fmap. }
  rewrite Hlen.
  assert (Hn : len pagerank ≠ 0).
  { unfold len. destruct pagerank; [done | simpl; lia]. }
  rewrite (proj2 (Z.eqb_neq _ _) Hn). simpl. split; [done | ].
  set (arr := sorted_asc (Dict.values pagerank)).
  assert (Harr : Forall (λ x, (0 <= x)%Q) arr).
  { subst arr. rewrite sorted_asc_perm. unfold Dict.values.
    by apply Forall_fmap. }
  destruct (Qlt_le_dec 0 (sum_Q arr)) as [Hlt|Hle].
  - eexists. split; [reflexivity | ].
    destruct (sum_Q_drop arr
                (length arr - Z.to_nat (top_decile (len pagerank))) Harr)
      as [H0 H1].
    split.
    + apply Qle_shift_div_l; [done | ]. by rewrite Qmult_0_l.
    + apply Qle_shift_div_r; [done | ]. by rewrite Qmult_1_l.
  - exists 0%Q. done.
Qed.

End pagerank_evaluation.

Lemma evaluate_pagerank_all_zero_witness :
  [("a", 0%Q); ("b", 0%Q); ("c", 0%Q)] ≠ [] ∧
  @evaluate_pagerank sample_libraries [("a", 0%Q); ("b", 0%Q); ("c", 0%Q)] =
  {| gini := 0; entropy := 0; top10pct := 0; nodeCount := 3 |}.
Proof.
  split; [done | ].
  apply (@evaluate_pagerank_all_zero sample_libraries
           [("a", 0%Q); ("b", 0%Q); ("c", 0%Q)]); [done | ].
  repeat constructor.
Defined.

Lemma evaluate_pagerank_top_share_witness :
  [("a", 1%Q); ("b", (1 # 2)%Q); ("c", 0%Q)] ≠ [] ∧
  nodeCount (@evaluate_pagerank sample_libraries
               [("a", 1%Q); ("b", (1 # 2)%Q); ("c", 0%Q)]) = 3.
Proof.
  split; [done | ].
  destruct (@evaluate_pagerank_top_share sample_libraries
              [("a", 1%Q); ("b", (1 # 2)%Q); ("c", 0%Q)]) as [Hn _];
    [done | | exact Hn].
  repeat constructor; simpl; unfold Qle; simpl; lia.
Defined.

(** ** [evaluate_communities] *)

Lemma comm_to_nodes_keys (nodes_G : list string) (cs : list (string * Z)) :
  ∀ acc : list (Z * list string),
  (NoDup (Dict.keys acc) →
   NoDup (Dict.keys
     (fold_left
        (λ (comm_to_nodes : list (Z * list string)) '(node, comm_id),
           if bool_decide (node ∈ nodes_G) then
             Dict.set comm_to_nodes comm_id
               (set_add (default [] (Dict.get comm_to_nodes comm_id)) node)
           else comm_to_nodes) cs acc))) ∧
  ∀ c, c ∈ Dict.keys
         (fold_left
            (λ (comm_to_nodes : list (Z * list string)) '(node, comm_id),
               if bool_decide (node ∈ nodes_G) then
                 Dict.set comm_to_nodes comm_id
                   (set_add (default [] (Dict.get comm_to_nodes comm_id)) node)
               else comm_to_nodes) cs acc) ↔
       c ∈ Dict.keys acc ∨ ∃ n, (n, c) ∈ cs ∧ n ∈ nodes_G.
Proof.
  induction cs as [|[n0 c0] cs IH]; intros acc; cbn [fold_left].
  - split; [done | ]. intros c. split; [by left | ].
    intros [?|(n & Hn & _)]; [done | inversion Hn].
  - destruct (bool_decide (n0 ∈ nodes_G)) eqn:Hin.
    + apply bool_decide_eq_true in Hin.
      destruct (IH (Dict.set acc c0 (set_add (default [] (Dict.get acc c0)) n0)))
        as [Hnd Hk].
      split; [intros Ha; by apply Hnd, DictFacts.NoDup_keys_set | ].
      intros c. rewrite Hk, DictFacts.keys_set. split.
      * intros [[->|Hc]|(n & Hn & HG)].
        -- right. exists n0. split; [left | done].
        -- by left.
        -- right. exists n. split; [by right | done].
      * intros [Hc|(n & Hn & HG)]; [tauto | ].
        apply elem_of_cons in Hn as [[= -> ->]|Hn]; [tauto | ].
        right. by exists n.
    + apply bool_decide_eq_false in Hin. destruct (IH acc) as [Hnd Hk].
      split; [done | ]. intros c. rewrite Hk. split.
      * intros [Hc|(n & Hn & HG)]; [by left | ].
        right. exists n. split; [by right | done].
      * intros [Hc|(n & Hn & HG)]; [by left | ].
        apply elem_of_cons in Hn as [[= -> ->]|Hn]; [done | ].
        right. by exists n.
Qed.

Section community_evaluation.
Context `{Libraries}.

(** X15: on a view with edges, [numCommunities] is the number of distinct
    labels carried by the entries of the mapping whose node is in the view;
    entries for nodes outside the view are not counted. *)
Theorem evaluate_communities_counts_labels (G : Graph.t)
    (communities : list (string * Z)) :
  communities ≠ [] → Graph.number_of_edges G ≠ 0 →
  ∃ labels,
    NoDup labels ∧
    (∀ c, c ∈ labels ↔ ∃ n, (n, c) ∈ communities ∧ n ∈ Graph.nodes G) ∧
    numCommunities (evaluate_communities G communities) = len labels.
Proof.
  intros Hne He. unfold evaluate_communities.
  rewrite bool_decide_eq_false_2 by done.
  rewrite (proj2 (Z.eqb_neq _ _) He). cbv zeta. cbn [orb].
  destruct (comm_to_nodes_keys (Graph.nodes G) communities []) as [Hnd Hk].
  set (comm_to_nodes := fold_left _ communities []) in *.
  exists (Dict.keys comm_to_nodes).
  split; [apply Hnd; constructor | ]. split.
  - intros c. rewrite Hk. split; [ | by right].
    intros [Hc|?]; [inversion Hc | done].
  - destruct (bool_decide (Dict.values comm_to_nodes = [])) eqn:Hp.
    + apply bool_decide_eq_true in Hp. simpl.
      unfold len, Dict.keys. destruct comm_to_nodes; [done | discriminate].
    + simpl. unfold len, Dict.values, Dict.keys. by rewrite !length_fmap.
Qed.

End community_evaluation.

Lemma evaluate_communities_counts_labels_witness :
  [("a", 0); ("b", 0); ("c", 4); ("ghost", 9)] ≠ [] ∧
  Graph.number_of_edges triangle ≠ 0 ∧
  numCommunities
    (@evaluate_communities sample_libraries triangle
       [("a", 0); ("b", 0); ("c", 4); ("ghost", 9)]) = 2.
Proof.
  split; [done | ]. split; [vm_compute; discriminate | ].
  destruct (@evaluate_communities_counts_labels sample_libraries triangle
              [("a", 0); ("b", 0); ("c", 4); ("ghost", 9)])
    as (labels & _ & _ & Hnum); [done | vm_compute; discriminate | ].
  vm_compute. reflexivity.
Defined.

(** ** The handler, end to end *)

Section handler_results.
Context `{Libraries}.


End handler_results.

